(** * Symbolic bytecode containers: [src/bytecode/bytecode.py]

    A shallow embedding of [BaseBytecode], [_BaseBytecodeList], [_InstrList]
    and [Bytecode].  Python objects that the code mutates or compares by
    identity (instructions, labels, pseudo-instructions, lists of names) live
    in an explicit store; a container holds references into that store. *)

From stdpp Require Import base numbers strings pretty gmap option list.

(** ** Object store *)

(** Identity of a Python object: its address in the store. *)
Abbreviation oid := nat (only parsing).

(** [Instr.lineno]: the [UNSET] sentinel, [None], or an integer. *)
Inductive Lineno :=
  | LUnset
  | LNone
  | LInt (n : Z).

(** The argument of an [Instr]: nothing, a [Label] (by identity), an integer,
    or any other constant (kept opaque). *)
Inductive InstrArg :=
  | ArgUnset
  | ArgLabel (l : oid)
  | ArgInt (n : Z)
  | ArgConst (s : string).

Record InstrLocation := {
  loc_lineno : option Z;
  loc_end_lineno : option Z;
  loc_col_offset : option Z;
  loc_end_col_offset : option Z
}.

(** Modelled from the spec: [bytecode.instr.Instr] is imported, not defined,
    by the source file.  Following the data model, an instruction carries an
    operation name, an argument, a line number with an unset sentinel and an
    optional location. *)
Record Instr := {
  instr_name : string;
  instr_arg : InstrArg;
  instr_lineno : Lineno;
  instr_location : option InstrLocation
}.

(** [ConcreteInstr(name, arg, location=...)], as built by [_flat]. *)
Record ConcreteInstr := {
  cinstr_name : string;
  cinstr_arg : Z;
  cinstr_location : option InstrLocation
}.

(** Modelled from the spec: the classes imported from [bytecode.instr].
    A [TryBegin] refers to the [Label] that is the exception-handling target
    of its region; a [TryEnd] refers to the [TryBegin] that it closes.
    [OOther] is an object of any other class, with [type(o).__name__];
    [ONames] is a Python list of names (the value of [cellvars], [freevars]
    and [argnames]); [OStr] is a [str]. *)
Inductive pyobj :=
  | OInstr (i : Instr)
  | OLabel
  | OSetLineno (lineno : Z)
  | OTryBegin (target : oid)
  | OTryEnd (entry : oid)
  | OOther (tyname : string)
  | ONames (xs : list string)
  | OStr (s : string).

#[global] Instance Lineno_eq_dec : EqDecision Lineno.
Proof. solve_decision. Defined.
#[global] Instance InstrArg_eq_dec : EqDecision InstrArg.
Proof. solve_decision. Defined.
#[global] Instance InstrLocation_eq_dec : EqDecision InstrLocation.
Proof. solve_decision. Defined.
#[global] Instance Instr_eq_dec : EqDecision Instr.
Proof. solve_decision. Defined.
#[global] Instance ConcreteInstr_eq_dec : EqDecision ConcreteInstr.
Proof. solve_decision. Defined.
#[global] Instance pyobj_eq_dec : EqDecision pyobj.
Proof. solve_decision. Defined.

Abbreviation heap := (list pyobj) (only parsing).

(** Every Python reference points to an object; a reference outside the store
    is read as an object of an unrelated class. *)
Definition deref (h : heap) (o : oid) : pyobj :=
  default (OOther "object") (h !! o).

(** Allocation of a new object: a fresh identity. *)
Definition alloc (h : heap) (v : pyobj) : heap * oid :=
  (h ++ [v], length h).

Definition type_name (o : pyobj) : string :=
  match o with
  | OInstr _ => "Instr"
  | OLabel => "Label"
  | OSetLineno _ => "SetLineno"
  | OTryBegin _ => "TryBegin"
  | OTryEnd _ => "TryEnd"
  | OOther n => n
  | ONames _ => "list"
  | OStr _ => "str"
  end.

(** The instruction after [instr.lineno = v]. *)
Definition set_instr_lineno (i : Instr) (v : Lineno) : Instr :=
  {| instr_name := instr_name i; instr_arg := instr_arg i;
     instr_lineno := v; instr_location := instr_location i |}.

(** ** Exceptions *)

Inductive PyError :=
  | ValueError (tyname : string)
      (* "Bytecode must only contain Label, SetLineno, and Instr objects,
         but %s was found" *)
  | RuntimeError_nested
      (* "TryBegin pseudo instructions cannot be nested." *)
  | KeyError (label : oid)
  | IndexError
  | TypeError_not_iterable
  | ValueError_slice_step
      (* "slice step cannot be zero" *).

#[global] Instance PyError_eq_dec : EqDecision PyError.
Proof. solve_decision. Defined.

Inductive result (A : Type) :=
  | Ok (a : A)
  | Raise (e : PyError).
Arguments Ok {A} a.
Arguments Raise {A} e.

#[global] Instance result_ret : MRet result := λ A a, Ok a.
#[global] Instance result_bind : MBind result := λ A B k m,
  match m with
  | Ok a => k a
  | Raise e => Raise e
  end.

Definition is_Ok {A} (r : result A) : Prop := ∃ a, r = Ok a.

(** ** Containers *)

Inductive Docstring :=
  | DocUnset
  | DocNone
  | DocStr (s : string).

#[global] Instance Docstring_eq_dec : EqDecision Docstring.
Proof. solve_decision. Defined.

(** A [Bytecode] object: the attributes set by [BaseBytecode.__init__] and
    [Bytecode.__init__], and the elements of the underlying [list].
    [cellvars], [freevars] and [argnames] are references to list objects. *)
Record bytecode := {
  argcount : Z;
  posonlyargcount : Z;
  kwonlyargcount : Z;
  first_lineno : Z;
  name : string;
  filename : string;
  docstring : Docstring;
  cellvars : oid;
  freevars : oid;
  flags : Z;
  argnames : oid;
  items : list oid
}.

Definition with_items (self : bytecode) (xs : list oid) : bytecode :=
  {| argcount := argcount self; posonlyargcount := posonlyargcount self;
     kwonlyargcount := kwonlyargcount self; first_lineno := first_lineno self;
     name := name self; filename := filename self;
     docstring := docstring self; cellvars := cellvars self;
     freevars := freevars self; flags := flags self;
     argnames := argnames self; items := xs |}.

(** ** Class hierarchy and method resolution *)

Inductive class :=
  | cls_object
  | cls_Generic
  | cls_list
  | cls_BaseBytecode
  | cls_BaseBytecodeList
  | cls_InstrList
  | cls_Bytecode.

#[global] Instance class_eq_dec : EqDecision class.
Proof. solve_decision. Defined.

(** The base classes, in the order of each [class] statement. *)
Definition bases (c : class) : list class :=
  match c with
  | cls_object => []
  | cls_Generic => [cls_object]
  | cls_list => [cls_object]
  | cls_BaseBytecode => [cls_object]
  | cls_BaseBytecodeList => [cls_BaseBytecode; cls_list; cls_Generic]
  | cls_InstrList => [cls_list; cls_Generic]
  | cls_Bytecode => [cls_InstrList; cls_BaseBytecodeList]
  end.

(** C3 linearisation, as Python computes [__mro__]. *)
Definition in_tail (c : class) (l : list class) : bool :=
  match l with
  | [] => false
  | _ :: t => bool_decide (c ∈ t)
  end.

Definition good_head (ls : list (list class)) (l : list class) : option class :=
  match l with
  | [] => None
  | c :: _ => if forallb (λ l', negb (in_tail c l')) ls then Some c else None
  end.

Fixpoint first_good (ls cands : list (list class)) : option class :=
  match cands with
  | [] => None
  | l :: rest =>
      match good_head ls l with
      | Some c => Some c
      | None => first_good ls rest
      end
  end.

Definition drop_head (c : class) (l : list class) : list class :=
  match l with
  | c' :: t => if bool_decide (c = c') then t else l
  | [] => []
  end.

Fixpoint c3_merge (fuel : nat) (ls : list (list class)) : option (list class) :=
  match fuel with
  | 0 => None
  | S fuel =>
      let ls := filter (λ l, l ≠ []) ls in
      match ls with
      | [] => Some []
      | _ =>
          c ← first_good ls ls;
          rest ← c3_merge fuel (drop_head c <$> ls);
          Some (c :: rest)
      end
  end.

Fixpoint mro_fuel (fuel : nat) (c : class) : option (list class) :=
  match fuel with
  | 0 => None
  | S fuel =>
      ls ← mapM (mro_fuel fuel) (bases c);
      rest ← c3_merge 16 (ls ++ [bases c]);
      Some (c :: rest)
  end.

Definition mro (c : class) : list class := default [] (mro_fuel 8 c).

(** Which class body defines which method. *)
Definition defines (c : class) (m : string) : bool :=
  match c with
  | cls_object => bool_decide (m ∈ ["__init__"; "__eq__"])
  | cls_Generic => false
  | cls_list =>
      bool_decide (m ∈ ["__init__"; "__eq__"; "__iter__"; "__getitem__"; "copy"])
  | cls_BaseBytecode =>
      bool_decide (m ∈ ["__init__"; "_copy_attr_from"; "__eq__"; "flags";
                        "update_flags"; "compute_stacksize"])
  | cls_BaseBytecodeList =>
      bool_decide (m ∈ ["__getitem__"; "copy"; "legalize"; "__iter__";
                        "_check_instr"])
  | cls_InstrList => bool_decide (m ∈ ["_flat"; "__eq__"])
  | cls_Bytecode =>
      bool_decide (m ∈ ["__init__"; "__iter__"; "_check_instr";
                        "_copy_attr_from"; "from_code"; "compute_stacksize";
                        "to_code"; "to_concrete_bytecode"])
  end.

(** Attribute lookup on an instance of [c]: the first class of the MRO whose
    body defines [m]. *)
Definition resolve (c : class) (m : string) : option class :=
  head (filter (λ k, defines k m = true) (mro c)).

(** [super().m] inside a method of class [here], on an instance of [c]. *)
Fixpoint mro_after (here : class) (l : list class) : list class :=
  match l with
  | [] => []
  | c :: t => if bool_decide (c = here) then t else mro_after here t
  end.

Definition super_resolve (c here : class) (m : string) : option class :=
  head (filter (λ k, defines k m = true) (mro_after here (mro c))).

(** The right operand of [==]: any Python value. *)
Inductive pyvalue :=
  | VBytecode (b : bytecode)      (* an instance of [Bytecode] *)
  | VInstrList (xs : list oid)    (* an instance of [_InstrList] itself *)
  | VList (xs : list oid)         (* a [list], a [tuple], or any other
                                     iterable that yields [xs] *)
  | VOther (tyname : string).     (* a value that is not iterable *)

(** The contents of a list of names. *)
Definition names_of (h : heap) (o : oid) : list string :=
  match deref h o with
  | ONames xs => xs
  | _ => []
  end.

(** ** [BaseBytecode] *)

Module BaseBytecode.

(** [__init__]: the attribute defaults; the two empty lists are new
    objects.  [self] is the object under construction. *)
Definition __init__ (h : heap) (self : bytecode) : heap * bytecode :=
  let '(h, cv) := alloc h (ONames []) in
  let '(h, fv) := alloc h (ONames []) in
  (h, {| argcount := 0; posonlyargcount := 0; kwonlyargcount := 0;
         first_lineno := 1; name := "<module>"; filename := "<string>";
         docstring := DocUnset; cellvars := cv; freevars := fv;
         flags := 0; argnames := argnames self; items := items self |}).

(** [_copy_attr_from]: [list(...)] builds a new list object with the same
    elements. *)
Definition _copy_attr_from (h : heap) (self other : bytecode)
  : heap * bytecode :=
  let '(h, cv) := alloc h (ONames (names_of h (cellvars other))) in
  let '(h, fv) := alloc h (ONames (names_of h (freevars other))) in
  (h, {| argcount := argcount other;
         posonlyargcount := posonlyargcount other;
         kwonlyargcount := kwonlyargcount other;
         first_lineno := first_lineno other;
         name := name other; filename := filename other;
         docstring := docstring other; cellvars := cv; freevars := fv;
         flags := flags other;
         argnames := argnames self; items := items self |}).

(** [__eq__], given the stack-size analysis [compute_stacksize] of the
    control-flow graph module (not part of this file). *)
Definition __eq__ (compute_stacksize : heap → bytecode → result Z)
    (h : heap) (self : bytecode) (other : pyvalue) : result bool :=
  match other with
  | VBytecode other =>
      if decide (argcount self ≠ argcount other) then Ok false
      else if decide (posonlyargcount self ≠ posonlyargcount other)
      then Ok false
      else if decide (kwonlyargcount self ≠ kwonlyargcount other)
      then Ok false
      else if decide (flags self ≠ flags other) then Ok false
      else if decide (first_lineno self ≠ first_lineno other) then Ok false
      else if decide (filename self ≠ filename other) then Ok false
      else if decide (name self ≠ name other) then Ok false
      else if decide (docstring self ≠ docstring other) then Ok false
      else if decide (names_of h (cellvars self)
                      ≠ names_of h (cellvars other)) then Ok false
      else if decide (names_of h (freevars self)
                      ≠ names_of h (freevars other)) then Ok false
      else
        s1 ← compute_stacksize h self;
        s2 ← compute_stacksize h other;
        if decide (s1 ≠ s2) then Ok false else Ok true
  | _ => Ok false   (* type(self) != type(other) *)
  end.

End BaseBytecode.

(** ** Iteration protocol

    A [for] loop over a container runs the [__iter__] of the container's
    class; that generator has local state and may raise between two
    elements.  [it_next] is one resumption of the generator on the next
    element of the underlying list. *)
Record Iter := {
  it_state : Type;
  it_init : it_state;
  it_next : heap → it_state → oid → result it_state
}.

(** [list.__iter__]: yields every element. *)
Definition list_iter : Iter :=
  {| it_state := unit; it_init := tt; it_next := λ _ _ _, Ok tt |}.

(** Draining an iterator (as [list(self)] does): the elements yielded, and
    the exception that stopped the traversal, if any. *)
Fixpoint drain (it : Iter) (h : heap) (s : it_state it) (xs : list oid)
  : list oid * option PyError :=
  match xs with
  | [] => ([], None)
  | instr :: rest =>
      match it_next it h s instr with
      | Raise e => ([], Some e)
      | Ok s' => let '(ys, r) := drain it h s' rest in (instr :: ys, r)
      end
  end.

(** ** List built-ins: indexing and slicing

    [list.__getitem__], which [_BaseBytecodeList.__getitem__] calls through
    [super()].  A slice step is [None] or an integer. *)

Inductive slice_step :=
  | StepNone
  | StepPos (p : positive)
  | StepNeg (p : positive)
  | StepZero.

Definition step_value (s : slice_step) : Z :=
  match s with
  | StepNone => 1
  | StepPos p => Z.pos p
  | StepNeg p => Z.neg p
  | StepZero => 0
  end.

Inductive pyindex :=
  | IdxInt (i : Z)
  | IdxSlice (start stop : option Z) (step : slice_step).

(** A slice bound brought into range, for a list of length [len]. *)
Definition adjust_index (len step v : Z) : Z :=
  if (v <? 0)%Z then
    if (v + len <? 0)%Z then (if (step <? 0)%Z then -1 else 0)%Z
    else (v + len)%Z
  else if (len <=? v)%Z then (if (step <? 0)%Z then len - 1 else len)%Z
  else v.

(** [slice.indices]: the first index and the number of elements taken. *)
Definition slice_indices (len : Z) (start stop : option Z) (step : Z)
  : Z * nat :=
  let start := match start with
               | Some v => adjust_index len step v
               | None => if (step <? 0)%Z then (len - 1)%Z else 0%Z
               end in
  let stop := match stop with
              | Some v => adjust_index len step v
              | None => if (step <? 0)%Z then (-1)%Z else len
              end in
  let n := if (step <? 0)%Z
           then (if (stop <? start)%Z
                 then ((start - stop - 1) / (- step) + 1)%Z else 0%Z)
           else (if (start <? stop)%Z
                 then ((stop - start - 1) / step + 1)%Z else 0%Z) in
  (start, Z.to_nat n).

(** The elements that a slice with a non-zero step takes. *)
Definition slice_elements (l : list oid) (start stop : option Z) (step : Z)
  : list oid :=
  let '(first, n) := slice_indices (Z.of_nat (length l)) start stop step in
  omap (λ k, l !! Z.to_nat (first + Z.of_nat k * step)) (seq 0 n).

(** [l[start:stop:step]]: a zero step is a [ValueError]. *)
Definition list_getitem_slice (l : list oid) (start stop : option Z)
    (step : slice_step) : result (list oid) :=
  match step with
  | StepZero => Raise ValueError_slice_step
  | _ => Ok (slice_elements l start stop (step_value step))
  end.

(** [l[i]]: a negative index counts from the end; out of range is an
    [IndexError]. *)
Definition list_getitem_int (l : list oid) (i : Z) : result oid :=
  let i := if (i <? 0)%Z then (i + Z.of_nat (length l))%Z else i in
  if (i <? 0)%Z then Raise IndexError
  else match l !! Z.to_nat i with
       | Some o => Ok o
       | None => Raise IndexError
       end.

(** ** [_BaseBytecodeList] *)

Module _BaseBytecodeList.

(** [__iter__]: [self._check_instr(instr)] before each [yield]. *)
Definition __iter__ (_check_instr : heap → oid → result unit)
    (h : heap) (instr : oid) : result unit :=
  _check_instr h instr.

(** The local variables of [legalize]. *)
Record locals := {
  lineno_pos : list nat;
  set_lineno : option Z;
  current_lineno : Lineno
}.

(** The body of [for pos, instr in enumerate(self)], after [self]'s
    iterator has yielded [instr].  The only [BaseInstr] a [Bytecode]
    traversal lets through is an [Instr]. *)
Definition legalize_body (h : heap) (pos : nat) (instr : oid) (v : locals)
  : heap * locals :=
  match deref h instr with
  | OSetLineno n =>
      (h, {| lineno_pos := lineno_pos v ++ [pos]; set_lineno := Some n;
             current_lineno := current_lineno v |})
  | OInstr i =>
      match set_lineno v with
      | Some n => (<[instr := OInstr (set_instr_lineno i (LInt n))]> h, v)
      | None =>
          match instr_lineno i with
          | LUnset =>
              (<[instr := OInstr (set_instr_lineno i (current_lineno v))]> h, v)
          | l =>
              (h, {| lineno_pos := lineno_pos v; set_lineno := set_lineno v;
                     current_lineno := l |})
          end
      end
  | _ => (h, v)
  end.

Fixpoint legalize_for (it : Iter) (h : heap) (s : it_state it) (pos : nat)
    (xs : list oid) (v : locals) : heap * result locals :=
  match xs with
  | [] => (h, Ok v)
  | instr :: rest =>
      match it_next it h s instr with
      | Raise e => (h, Raise e)
      | Ok s' =>
          let '(h', v') := legalize_body h pos instr v in
          legalize_for it h' s' (S pos) rest v'
      end
  end.

(** [del self[i]]: out of range is an [IndexError]. *)
Definition delitem (i : nat) (l : list oid) : result (list oid) :=
  if decide (i < length l) then Ok (delete i l) else Raise IndexError.

(** [for i in reversed(lineno_pos): del self[i]], given the positions
    already reversed. *)
Fixpoint legalize_del (ps : list nat) (l : list oid)
  : list oid * result unit :=
  match ps with
  | [] => (l, Ok tt)
  | i :: ps' =>
      match delitem i l with
      | Raise e => (l, Raise e)
      | Ok l' => legalize_del ps' l'
      end
  end.

(** [legalize]: the store and [self] as the call leaves them, and whether
    the call returned or raised. *)
Definition legalize (it : Iter) (h : heap) (self : bytecode)
  : heap * bytecode * result unit :=
  let v0 := {| lineno_pos := []; set_lineno := None;
               current_lineno := LInt (first_lineno self) |} in
  match legalize_for it h (it_init it) 0 (items self) v0 with
  | (h', Raise e) => (h', self, Raise e)
  | (h', Ok v) =>
      let '(l, r) := legalize_del (reverse (lineno_pos v)) (items self) in
      (h', with_items self l, r)
  end.

(** [copy]: [type(self)(super().copy())], then [new._copy_attr_from(self)];
    the constructor and [_copy_attr_from] are those of [type(self)].
    [super().copy()] is [list.copy]: a new list holding the same
    references. *)
Definition copy
    (__init__ : Iter → heap → list oid → heap * result bytecode)
    (_copy_attr_from : heap → bytecode → bytecode → heap * bytecode)
    (h : heap) (self : bytecode) : heap * result bytecode :=
  match __init__ list_iter h (items self) with
  | (h, Raise e) => (h, Raise e)
  | (h, Ok new) =>
      let '(h, new) := _copy_attr_from h new self in (h, Ok new)
  end.

(** [__getitem__]: an element for an integer index; for a slice, a new
    container of [type(self)] built from the sliced list, with the attributes
    of [self]. *)
Definition __getitem__
    (__init__ : Iter → heap → list oid → heap * result bytecode)
    (_copy_attr_from : heap → bytecode → bytecode → heap * bytecode)
    (h : heap) (self : bytecode) (index : pyindex)
  : heap * result (oid + bytecode) :=
  match index with
  | IdxInt i =>
      (h, match list_getitem_int (items self) i with
          | Ok o => Ok (inl o)
          | Raise e => Raise e
          end)
  | IdxSlice start stop step =>
      match list_getitem_slice (items self) start stop step with
      | Raise e => (h, Raise e)
      | Ok value =>
          match __init__ list_iter h value with
          | (h, Raise e) => (h, Raise e)
          | (h, Ok value) =>
              let '(h, value) := _copy_attr_from h value self in
              (h, Ok (inr value))
          end
      end
  end.

End _BaseBytecodeList.

(** ** [_InstrList]: flattening for comparison *)

Module _InstrList.

(** An element of the list returned by [_flat]. *)
Inductive flat_item :=
  | FLabel (index : nat)          (* the string "label_instr%s" % index *)
  | FConcrete (c : ConcreteInstr) (* a [ConcreteInstr] built by [_flat] *)
  | FObj (o : oid).               (* an element of [self], as it is *)

(** The local variables of [_flat].  A pair of [jumps] holds the target
    label and the new [ConcreteInstr]; that object is referenced from one
    slot of [instructions], whose position stands for it. *)
Record locals := {
  instructions : list flat_item;
  labels : gmap nat nat;
  jumps : list (oid * nat);
  offset : nat
}.

Definition flat_body (h : heap) (index : nat) (instr : oid) (v : locals)
  : locals :=
  let emit x :=
    {| instructions := instructions v ++ [x]; labels := labels v;
       jumps := jumps v; offset := offset v + 1 |} in
  match deref h instr with
  | OLabel =>
      {| instructions := instructions v ++ [FLabel index];
         labels := <[instr := offset v]> (labels v);
         jumps := jumps v; offset := offset v |}
  | OInstr i =>
      match instr_arg i with
      | ArgLabel target_label =>
          {| instructions :=
               instructions v
               ++ [FConcrete {| cinstr_name := instr_name i;
                                cinstr_arg := 0;
                                cinstr_location := instr_location i |}];
             labels := labels v;
             jumps := jumps v ++ [(target_label, length (instructions v))];
             offset := offset v + 1 |}
      | _ => emit (FObj instr)
      end
  | _ => emit (FObj instr)
  end.

Fixpoint flat_for (it : Iter) (h : heap) (s : it_state it) (index : nat)
    (xs : list oid) (v : locals) : result locals :=
  match xs with
  | [] => Ok v
  | instr :: rest =>
      s' ← it_next it h s instr;
      flat_for it h s' (S index) rest (flat_body h index instr v)
  end.

(** [instr.arg = n] on a [ConcreteInstr]. *)
Definition set_arg (n : nat) (x : flat_item) : flat_item :=
  match x with
  | FConcrete c =>
      FConcrete {| cinstr_name := cinstr_name c; cinstr_arg := Z.of_nat n;
                   cinstr_location := cinstr_location c |}
  | _ => x
  end.

(** [for target_label, instr in jumps: instr.arg = labels[target_label]] *)
Fixpoint flat_resolve (js : list (oid * nat)) (lbls : gmap nat nat)
    (l : list flat_item) : result (list flat_item) :=
  match js with
  | [] => Ok l
  | (target_label, pos) :: js' =>
      match lbls !! target_label with
      | None => Raise (KeyError target_label)
      | Some n => flat_resolve js' lbls (alter (set_arg n) pos l)
      end
  end.

Definition _flat (it : Iter) (h : heap) (self : list oid)
  : result (list flat_item) :=
  v ← flat_for it h (it_init it) 0 self
         {| instructions := []; labels := ∅; jumps := []; offset := 0 |};
  flat_resolve (jumps v) (labels v) (instructions v).

(** Modelled from the spec: [__eq__] of the classes of [bytecode.instr],
    which this file imports.  Instructions and line markers are compared
    by their fields, lists of names and strings by their contents; a
    [Label], a [TryBegin], a [TryEnd] and an object of an unknown class are
    equal to themselves only (the identity test is in [item_eq]). *)
Definition obj_eq (a b : pyobj) : bool :=
  match a, b with
  | OInstr i, OInstr j => bool_decide (i = j)
  | OSetLineno n, OSetLineno m => bool_decide (n = m)
  | ONames xs, ONames ys => bool_decide (xs = ys)
  | OStr s, OStr s' => bool_decide (s = s')
  | _, _ => false
  end.

(** The string ["label_instr%s" % index] that [_flat] emits for a label. *)
Definition label_str (index : nat) : string :=
  "label_instr" +:+ pretty index.

(** A flattened element against the placeholder of a label: only a [str]
    with the same characters is equal to it. *)
Definition str_eq (h : heap) (index : nat) (o : oid) : bool :=
  match deref h o with
  | OStr s => bool_decide (s = label_str index)
  | _ => false
  end.

(** [x == y] on two elements of flattened lists; [list.__eq__] tries
    identity first. *)
Definition item_eq (h : heap) (x y : flat_item) : bool :=
  match x, y with
  | FLabel i, FLabel j => bool_decide (i = j)
  | FLabel i, FObj o => str_eq h i o
  | FObj o, FLabel i => str_eq h i o
  | FConcrete c, FConcrete d => bool_decide (c = d)
  | FObj o, FObj o' => bool_decide (o = o') || obj_eq (deref h o) (deref h o')
  | _, _ => false
  end.

(** [list.__eq__] *)
Fixpoint list_eq (h : heap) (l k : list flat_item) : bool :=
  match l, k with
  | [], [] => true
  | x :: l', y :: k' => item_eq h x y && list_eq h l' k'
  | _, _ => false
  end.

(** [__eq__], on a [self] whose class iterates with [it]. *)
Definition __eq__ (it : Iter) (bytecode_iter : Iter) (h : heap)
    (self : list oid) (other : pyvalue) : result bool :=
  other ← match other with
          | VBytecode b => Ok (bytecode_iter, items b)
          | VInstrList xs => Ok (list_iter, xs)
          | VList xs => Ok (list_iter, xs)   (* _InstrList(other) *)
          | VOther _ => Raise TypeError_not_iterable
          end;
  f1 ← _flat it h self;
  f2 ← _flat other.1 h other.2;
  Ok (list_eq h f1 f2).

End _InstrList.

(** ** [Bytecode]: validation and traversal *)

Module Bytecode.

Definition _check_instr (h : heap) (instr : oid) : result unit :=
  match deref h instr with
  | OLabel | OSetLineno _ | OInstr _ | OTryBegin _ | OTryEnd _ => Ok tt
  | o => Raise (ValueError (type_name o))
  end.

(** One resumption of the generator [__iter__]; the state is
    [seen_try_begin]. *)
Definition __iter__ (h : heap) (seen_try_begin : bool) (instr : oid)
  : result bool :=
  _ ← _BaseBytecodeList.__iter__ _check_instr h instr;
  _ ← _check_instr h instr;
  match deref h instr with
  | OTryBegin _ =>
      if seen_try_begin then Raise RuntimeError_nested else Ok true
  | OTryEnd _ => Ok false
  | _ => Ok seen_try_begin
  end.

Definition iter : Iter :=
  {| it_state := bool; it_init := false; it_next := __iter__ |}.

(** [__init__]: every element of [instructions] goes through
    [_check_instr], then [extend] traverses [instructions] again.  [it]
    is the iterator of the argument's class, [self] the new object. *)
Fixpoint init_for (it : Iter) (h : heap) (s : it_state it) (xs : list oid)
  : result unit :=
  match xs with
  | [] => Ok tt
  | instr :: rest =>
      s' ← it_next it h s instr;
      _ ← _check_instr h instr;
      init_for it h s' rest
  end.

Definition __init__ (it : Iter) (h : heap) (instructions : list oid)
  : heap * result bytecode :=
  let self := {| argcount := 0; posonlyargcount := 0; kwonlyargcount := 0;
                 first_lineno := 0; name := ""; filename := "";
                 docstring := DocUnset; cellvars := 0; freevars := 0;
                 flags := 0; argnames := 0; items := [] |} in
  let '(h, self) := BaseBytecode.__init__ h self in
  let '(h, an) := alloc h (ONames []) in
  let self :=
    {| argcount := argcount self; posonlyargcount := posonlyargcount self;
       kwonlyargcount := kwonlyargcount self;
       first_lineno := first_lineno self; name := name self;
       filename := filename self; docstring := docstring self;
       cellvars := cellvars self; freevars := freevars self;
       flags := flags self; argnames := an; items := items self |} in
  (h,
   _ ← init_for it h (it_init it) instructions;
   match drain it h (it_init it) instructions with
   | (_, Some e) => Raise e
   | (ys, None) => Ok (with_items self (items self ++ ys))
   end).

(** [_copy_attr_from]: [argnames] is assigned, not copied. *)
Definition _copy_attr_from (h : heap) (self other : bytecode)
  : heap * bytecode :=
  let '(h, self) := BaseBytecode._copy_attr_from h self other in
  (h, {| argcount := argcount self; posonlyargcount := posonlyargcount self;
         kwonlyargcount := kwonlyargcount self;
         first_lineno := first_lineno self; name := name self;
         filename := filename self; docstring := docstring self;
         cellvars := cellvars self; freevars := freevars self;
         flags := flags self; argnames := argnames other;
         items := items self |}).

(** [copy] is inherited from [_BaseBytecodeList]. *)
Definition copy (h : heap) (self : bytecode) : heap * result bytecode :=
  _BaseBytecodeList.copy __init__ _copy_attr_from h self.

(** [__getitem__] is inherited from [_BaseBytecodeList]. *)
Definition __getitem__ (h : heap) (self : bytecode) (index : pyindex)
  : heap * result (oid + bytecode) :=
  _BaseBytecodeList.__getitem__ __init__ _copy_attr_from h self index.

(** [self == other]: the [__eq__] that attribute lookup finds on
    [Bytecode]. *)
Definition __eq__ (compute_stacksize : heap → bytecode → result Z)
    (h : heap) (self : bytecode) (other : pyvalue) : result bool :=
  match resolve cls_Bytecode "__eq__" with
  | Some cls_InstrList => _InstrList.__eq__ iter iter h (items self) other
  | Some cls_BaseBytecode =>
      BaseBytecode.__eq__ compute_stacksize h self other
  | _ => Raise TypeError_not_iterable
  end.

(** [legalize] is inherited from [_BaseBytecodeList]; [enumerate(self)]
    runs [Bytecode.__iter__]. *)
Definition legalize (h : heap) (self : bytecode)
  : heap * bytecode * result unit :=
  _BaseBytecodeList.legalize iter h self.

End Bytecode.

(** ** Vocabulary of the statements *)

(** The five entry variants ([isinstance] test of [_check_instr]). *)
Definition is_entry (o : pyobj) : bool :=
  match o with
  | OLabel | OSetLineno _ | OInstr _ | OTryBegin _ | OTryEnd _ => true
  | _ => false
  end.

Definition is_SetLineno (o : pyobj) : bool :=
  match o with OSetLineno _ => true | _ => false end.

Definition is_TryBegin (o : pyobj) : bool :=
  match o with OTryBegin _ => true | _ => false end.

Definition is_TryEnd (o : pyobj) : bool :=
  match o with OTryEnd _ => true | _ => false end.

(** A region is open after the entries [pre]: the last region marker among
    them is a [TryBegin]. *)
Definition region_open (h : heap) (pre : list oid) : bool :=
  match list.last (filter (λ o, is_TryBegin (deref h o) || is_TryEnd (deref h o))
                         pre) with
  | Some o => is_TryBegin (deref h o)
  | None => false
  end.

(** The entries that are not line markers, in order. *)
Definition remove_markers (h : heap) (xs : list oid) : list oid :=
  filter (λ o, is_SetLineno (deref h o) = false) xs.

(** The positions of the line markers of [xs], counted from [pos]. *)
Fixpoint marker_positions (h : heap) (pos : nat) (xs : list oid) : list nat :=
  match xs with
  | [] => []
  | o :: rest =>
      if is_SetLineno (deref h o) then pos :: marker_positions h (S pos) rest
      else marker_positions h (S pos) rest
  end.

(** A whole traversal by [Bytecode.__iter__] over a fixed store: the final
    [seen_try_begin], or the exception raised. *)
Fixpoint traverse (h : heap) (seen : bool) (xs : list oid) : result bool :=
  match xs with
  | [] => Ok seen
  | instr :: rest => s' ← Bytecode.__iter__ h seen instr; traverse h s' rest
  end.

(** [h'] is [h] up to the line numbers of instructions, none of which became
    unset. *)
Definition lineno_update (h h' : heap) : Prop :=
  length h' = length h ∧
  ∀ o, deref h' o = deref h o ∨
       ∃ i v, deref h o = OInstr i ∧
              deref h' o = OInstr (set_instr_lineno i v) ∧ v ≠ LUnset.

(** What a caller can observe of a container: its attributes, the contents
    of its lists of names, and the contents of its entries. *)
Definition snapshot (h : heap) (c : bytecode) :=
  ((argcount c, posonlyargcount c, kwonlyargcount c, flags c),
   (first_lineno c, name c, filename c, docstring c),
   (names_of h (cellvars c), names_of h (freevars c),
    names_of h (argnames c)),
   deref h <$> items c).

(** Every reference held by the container points into the store. *)
Definition wf_bytecode (h : heap) (c : bytecode) : Prop :=
  cellvars c < length h ∧ freevars c < length h ∧ argnames c < length h ∧
  Forall (λ o, o < length h) (items c).

(** Client mutations: [instr.lineno = v] and [names.append(x)]. *)
Definition setattr_lineno (h : heap) (o : oid) (v : Lineno) : heap :=
  match h !! o with
  | Some (OInstr i) => <[o := OInstr (set_instr_lineno i v)]> h
  | _ => h
  end.

Definition names_append (h : heap) (o : oid) (x : string) : heap :=
  match h !! o with
  | Some (ONames xs) => <[o := ONames (xs ++ [x])]> h
  | _ => h
  end.

(** The first loop of [_flat] when no element is refused by the iterator. *)
Fixpoint flat_fold (h : heap) (index : nat) (xs : list oid)
    (v : _InstrList.locals) : _InstrList.locals :=
  match xs with
  | [] => v
  | instr :: rest =>
      flat_fold h (S index) rest (_InstrList.flat_body h index instr v)
  end.

(** The locals of [_flat] on entry. *)
Definition flat_init : _InstrList.locals :=
  {| _InstrList.instructions := []; _InstrList.labels := ∅;
     _InstrList.jumps := []; _InstrList.offset := 0 |}.

(** The labels of a container: those among its entries and those its
    instructions refer to. *)
Definition entry_labels (h : heap) (xs : list oid) : list oid :=
  filter (λ o, deref h o = OLabel) xs.

Definition target_of (h : heap) (o : oid) : option oid :=
  match deref h o with
  | OInstr i => match instr_arg i with ArgLabel l => Some l | _ => None end
  | _ => None
  end.

Definition target_labels (h : heap) (xs : list oid) : list oid :=
  omap (target_of h) xs.

Definition set_instr_arg (i : Instr) (a : InstrArg) : Instr :=
  {| instr_name := instr_name i; instr_arg := a;
     instr_lineno := instr_lineno i; instr_location := instr_location i |}.

(** The label that a [TryBegin] targets. *)
Definition region_target (h : heap) (o : oid) : option oid :=
  match deref h o with
  | OTryBegin t => Some t
  | _ => None
  end.

Definition region_targets (h : heap) (xs : list oid) : list oid :=
  omap (region_target h) xs.

(** All the labels of a container: its label entries, the labels its
    instructions refer to and the labels its regions target. *)
Definition all_labels (h : heap) (xs : list oid) : list oid :=
  entry_labels h xs ++ target_labels h xs ++ region_targets h xs.

(** Entry [o'] stands for entry [o] after the labels are renamed by [ρ]: a
    label becomes its renaming; an instruction that refers to a label
    becomes an instruction that refers to the renamed label; a [TryBegin]
    becomes a [TryBegin] that targets the renamed label and a [TryEnd] a
    [TryEnd] (of the new [TryBegin], see [label_renaming]); any other entry
    is kept. *)
Inductive renamed_entry (h : heap) (ρ : oid → oid) : oid → oid → Prop :=
  | renamed_label o :
      deref h o = OLabel → deref h (ρ o) = OLabel →
      renamed_entry h ρ o (ρ o)
  | renamed_jump o o' i l :
      deref h o = OInstr i → instr_arg i = ArgLabel l →
      deref h o' = OInstr (set_instr_arg i (ArgLabel (ρ l))) →
      renamed_entry h ρ o o'
  | renamed_try_begin o o' t :
      deref h o = OTryBegin t → deref h o' = OTryBegin (ρ t) →
      renamed_entry h ρ o o'
  | renamed_try_end o o' e e' :
      deref h o = OTryEnd e → deref h o' = OTryEnd e' →
      renamed_entry h ρ o o'
  | renamed_other o :
      deref h o ≠ OLabel → target_of h o = None →
      is_TryBegin (deref h o) = false → is_TryEnd (deref h o) = false →
      renamed_entry h ρ o o.

(** [ys] is [xs] with every label replaced by a fresh one: position by
    position the entries are renamed, a [TryEnd] closes the [TryBegin] that
    stands at the position of the one it closed, distinct labels get
    distinct new labels, and no new label is a label of [xs]. *)
Record label_renaming (h : heap) (ρ : oid → oid) (xs ys : list oid) : Prop := {
  renaming_entries : Forall2 (renamed_entry h ρ) xs ys;
  renaming_regions :
    ∀ k o o' e e' j,
      xs !! k = Some o → ys !! k = Some o' →
      deref h o = OTryEnd e → deref h o' = OTryEnd e' →
      xs !! j = Some e → ys !! j = Some e';
  renaming_inj :
    ∀ l l', l ∈ all_labels h xs → l' ∈ all_labels h xs →
            ρ l = ρ l' → l = l';
  renaming_fresh :
    ∀ l, l ∈ all_labels h xs → ρ l ∉ all_labels h xs
}.

(** No entry of [xs] is a [TryBegin] or a [TryEnd]. *)
Definition no_region_marker (h : heap) (xs : list oid) : Prop :=
  Forall (λ o, is_TryBegin (deref h o) = false ∧
               is_TryEnd (deref h o) = false) xs.

(** Two runs of the first loop of [_flat], on a container and on its
    renaming, are in step: same emitted elements and offset, and the label
    map and the deferred jumps of the second are those of the first renamed
    (on the labels [P] under consideration). *)
Definition in_step (ρ : oid → oid) (P : oid → Prop)
    (v1 v2 : _InstrList.locals) : Prop :=
  _InstrList.instructions v2 = _InstrList.instructions v1 ∧
  _InstrList.offset v2 = _InstrList.offset v1 ∧
  _InstrList.jumps v2 = prod_map ρ id <$> _InstrList.jumps v1 ∧
  (∀ l, P l → _InstrList.labels v2 !! ρ l = _InstrList.labels v1 !! l).

(** The loop of [legalize] when the iterator refuses no element. *)
Fixpoint legalize_fold (h : heap) (pos : nat) (xs : list oid)
    (v : _BaseBytecodeList.locals) : heap * _BaseBytecodeList.locals :=
  match xs with
  | [] => (h, v)
  | instr :: rest =>
      let '(h', v') := _BaseBytecodeList.legalize_body h pos instr v in
      legalize_fold h' (S pos) rest v'
  end.

(** The locals of [legalize] on entry. *)
Definition legalize_init (c : bytecode) : _BaseBytecodeList.locals :=
  {| _BaseBytecodeList.lineno_pos := [];
     _BaseBytecodeList.set_lineno := None;
     _BaseBytecodeList.current_lineno := LInt (first_lineno c) |}.

(** The line that an instruction carries when it is not unset. *)
Definition explicit_line (h : heap) (o : oid) : option Lineno :=
  match deref h o with
  | OInstr i =>
      match instr_lineno i with
      | LUnset => None
      | l => Some l
      end
  | _ => None
  end.

(** The running line after the entries [pre]: the line of the last
    instruction of [pre] that carries one, or [first] when there is none. *)
Definition baseline (h : heap) (first : Lineno) (pre : list oid) : Lineno :=
  default first (list.last (omap (explicit_line h) pre)).

(** The entries of [pre] that are not labels: what [_flat] counts. *)
Definition non_labels (h : heap) (pre : list oid) : list oid :=
  filter (λ o, deref h o ≠ OLabel) pre.

(** What the first loop of [_flat] emits for the entry [o] at position
    [k]. *)
Definition emitted (h : heap) (k : nat) (o : oid) : _InstrList.flat_item :=
  match deref h o with
  | OLabel => _InstrList.FLabel k
  | OInstr i =>
      match instr_arg i with
      | ArgLabel _ =>
          _InstrList.FConcrete
            {| cinstr_name := instr_name i; cinstr_arg := 0;
               cinstr_location := instr_location i |}
      | _ => _InstrList.FObj o
      end
  | _ => _InstrList.FObj o
  end.

(** The jumps of [xs], each with its target and its position counted from
    [k]. *)
Fixpoint jumps_of (h : heap) (k : nat) (xs : list oid) : list (oid * nat) :=
  match xs with
  | [] => []
  | o :: rest =>
      match target_of h o with
      | Some l => (l, k) :: jumps_of h (S k) rest
      | None => jumps_of h (S k) rest
      end
  end.

(** The attributes that [BaseBytecode.__eq__] compares are the same. *)
Definition same_attributes (h : heap) (a b : bytecode) : Prop :=
  argcount a = argcount b ∧ posonlyargcount a = posonlyargcount b ∧
  kwonlyargcount a = kwonlyargcount b ∧ flags a = flags b ∧
  first_lineno a = first_lineno b ∧ filename a = filename b ∧
  name a = name b ∧ docstring a = docstring b ∧
  names_of h (cellvars a) = names_of h (cellvars b) ∧
  names_of h (freevars a) = names_of h (freevars b).

(** No [TryBegin] of [xs] comes while a region is open. *)
Definition never_nested (h : heap) (xs : list oid) : Prop :=
  ∀ pre b post, xs = pre ++ b :: post →
                is_TryBegin (deref h b) = true → region_open h pre = false.

(** ** Default containers and example data *)

(** An instruction with no line number and no location. *)
Definition ex_instr (n : string) (a : InstrArg) : Instr :=
  {| instr_name := n; instr_arg := a; instr_lineno := LUnset;
     instr_location := None |}.

(** A container with the attributes that [__init__] sets, whose three lists
    of names are the objects at [k], [k + 1] and [k + 2]. *)
Definition default_code (k : nat) (xs : list oid) : bytecode :=
  {| argcount := 0; posonlyargcount := 0; kwonlyargcount := 0;
     first_lineno := 1; name := "<module>"; filename := "<string>";
     docstring := DocUnset; cellvars := k; freevars := k + 1; flags := 0;
     argnames := k + 2; items := xs |}.

(** The three empty lists of names that [__init__] allocates. *)
Definition default_names : heap := [ONames []; ONames []; ONames []].

(** A stack-size analysis that answers 0 for every container. *)
Definition ex_stacksize (h : heap) (c : bytecode) : result Z := Ok 0%Z.

(** * Properties *)

(** ** The store *)

Lemma deref_lookup (h : heap) o v : h !! o = Some v → deref h o = v.
Proof. unfold deref. by intros ->. Qed.

Lemma deref_ge (h : heap) o : length h ≤ o → deref h o = OOther "object".
Proof. intros H. unfold deref. by rewrite lookup_ge_None_2. Qed.

Lemma deref_lt_lookup (h : heap) o :
  deref h o ≠ OOther "object" → h !! o = Some (deref h o).
Proof.
  unfold deref. destruct (h !! o) eqn:E; simpl; [done|congruence].
Qed.

Lemma deref_Instr_lt (h : heap) o i : deref h o = OInstr i → o < length h.
Proof.
  intros H. destruct (decide (o < length h)) as [|Hge]; [done|].
  rewrite deref_ge in H; [done|lia].
Qed.

Lemma deref_insert_eq (h : heap) o v : o < length h → deref (<[o:=v]> h) o = v.
Proof. intros H. unfold deref. by rewrite list_lookup_insert_eq. Qed.

Lemma deref_insert_ne (h : heap) o o' v :
  o ≠ o' → deref (<[o:=v]> h) o' = deref h o'.
Proof. intros H. unfold deref. by rewrite list_lookup_insert_ne. Qed.

Lemma deref_app_l (h k : heap) o : o < length h → deref (h ++ k) o = deref h o.
Proof. intros H. unfold deref. by rewrite lookup_app_l. Qed.

Lemma set_instr_lineno_twice i v w :
  set_instr_lineno (set_instr_lineno i v) w = set_instr_lineno i w.
Proof. done. Qed.

Lemma lineno_update_refl h : lineno_update h h.
Proof. split; [done|]. by left. Qed.

Lemma lineno_update_trans h1 h2 h3 :
  lineno_update h1 h2 → lineno_update h2 h3 → lineno_update h1 h3.
Proof.
  intros [L12 H12] [L23 H23]. split; [congruence|]. intros o.
  destruct (H23 o) as [E23|(i2 & v2 & E2 & E3 & Hv2)].
  - rewrite E23. apply H12.
  - right. destruct (H12 o) as [E12|(i1 & v1 & E1 & E2' & Hv1)].
    + exists i2, v2. by rewrite <- E12.
    + exists i1, v2. rewrite E2' in E2. injection E2 as <-. by rewrite E3.
Qed.

Lemma lineno_update_set (h : heap) o i v :
  deref h o = OInstr i → v ≠ LUnset →
  lineno_update h (<[o := OInstr (set_instr_lineno i v)]> h).
Proof.
  intros Ho Hv. split; [by rewrite length_insert|]. intros o'.
  destruct (decide (o = o')) as [<-|Hne].
  - right. exists i, v. split_and!; [done| |done].
    apply deref_insert_eq. by eapply deref_Instr_lt.
  - left. by apply deref_insert_ne.
Qed.

(** The validator only looks at the class of an object. *)
Lemma iter_lineno_update h h' seen o :
  lineno_update h h' → Bytecode.__iter__ h' seen o = Bytecode.__iter__ h seen o.
Proof.
  intros [_ H]. unfold Bytecode.__iter__, _BaseBytecodeList.__iter__,
    Bytecode._check_instr.
  destruct (H o) as [->|(i & v & -> & -> & _)]; done.
Qed.

Lemma traverse_lineno_update h h' seen xs :
  lineno_update h h' → traverse h' seen xs = traverse h seen xs.
Proof.
  intros Hu. revert seen. induction xs as [|o xs IH]; intros seen; simpl; [done|].
  rewrite (iter_lineno_update h h') by done.
  destruct (Bytecode.__iter__ h seen o); simpl; [apply IH|done].
Qed.

Lemma is_SetLineno_update h h' o :
  lineno_update h h' → is_SetLineno (deref h' o) = is_SetLineno (deref h o).
Proof. intros [_ H]. destruct (H o) as [->|(i & v & -> & -> & _)]; done. Qed.

(** ** [legalize]: the loop *)

Import _BaseBytecodeList.

Lemma legalize_body_spec h pos instr v h' v' :
  current_lineno v ≠ LUnset →
  legalize_body h pos instr v = (h', v') →
  lineno_update h h' ∧
  current_lineno v' ≠ LUnset ∧
  (∀ o, o ≠ instr → deref h' o = deref h o) ∧
  (∀ i, deref h' instr = OInstr i → instr_lineno i ≠ LUnset) ∧
  lineno_pos v' =
    lineno_pos v ++ (if is_SetLineno (deref h instr) then [pos] else []).
Proof.
  intros Hc. unfold legalize_body.
  destruct (deref h instr) as [i| |n|?|?|?|?|?] eqn:E; simpl;
    try (intros [= <- <-]; split_and!;
         [apply lineno_update_refl|done|done|intros i; congruence
         |by rewrite ?app_nil_r]).
  destruct (set_lineno v) as [n|] eqn:Es.
  { intros [= <- <-]. split_and!; [by apply lineno_update_set|done| | |
      by rewrite app_nil_r].
    - intros o Hne. by apply deref_insert_ne.
    - intros j. rewrite deref_insert_eq by (by eapply deref_Instr_lt).
      by intros [= <-]. }
  destruct (instr_lineno i) eqn:El.
  - intros [= <- <-]. split_and!; [by apply lineno_update_set|done| | |
      by rewrite app_nil_r].
    + intros o Hne. by apply deref_insert_ne.
    + intros j. rewrite deref_insert_eq by (by eapply deref_Instr_lt).
      by intros [= <-].
  - intros [= <- <-]. split_and!; [apply lineno_update_refl|done|done| |
      by rewrite app_nil_r].
    intros j. rewrite E. intros [= <-]. by rewrite El.
  - intros [= <- <-]. split_and!; [apply lineno_update_refl|done|done| |
      by rewrite app_nil_r].
    intros j. rewrite E. intros [= <-]. by rewrite El.
Qed.

Lemma marker_positions_update h h' pos xs :
  lineno_update h h' → marker_positions h' pos xs = marker_positions h pos xs.
Proof.
  intros Hu. revert pos. induction xs as [|o xs IH]; intros pos; simpl; [done|].
  by rewrite (is_SetLineno_update h h'), IH.
Qed.

Lemma legalize_for_spec xs : ∀ h s pos v h' r,
  current_lineno v ≠ LUnset →
  legalize_for Bytecode.iter h s pos xs v = (h', r) →
  lineno_update h h' ∧
  (∀ o, o ∉ xs → deref h' o = deref h o) ∧
  match r with
  | Raise e => traverse h s xs = Raise e
  | Ok v' =>
      is_Ok (traverse h s xs) ∧
      current_lineno v' ≠ LUnset ∧
      lineno_pos v' = lineno_pos v ++ marker_positions h pos xs ∧
      (∀ o i, o ∈ xs → deref h' o = OInstr i → instr_lineno i ≠ LUnset)
  end.
Proof.
  induction xs as [|instr rest IH]; intros h s pos v h' r Hc; simpl.
  { intros [= <- <-]. split_and!;
      [apply lineno_update_refl|done|by eexists|done|by rewrite app_nil_r|].
    intros o i Ho. by apply elem_of_nil in Ho. }
  destruct (Bytecode.__iter__ h s instr) as [s'|e] eqn:Ei; simpl.
  2:{ intros [= <- <-]. split_and!; [apply lineno_update_refl|done|done]. }
  destruct (legalize_body h pos instr v) as [h1 v1] eqn:Eb.
  apply legalize_body_spec in Eb as (Hu1 & Hc1 & Hfr1 & Hset1 & Hpos1); [|done].
  intros Ef. apply IH in Ef as (Hu2 & Hfr2 & Hr); [|done].
  split_and!.
  - by eapply lineno_update_trans.
  - intros o Ho. apply not_elem_of_cons in Ho as [Hne Ho].
    rewrite Hfr2, Hfr1; done.
  - rewrite (traverse_lineno_update h h1) in Hr by done.
    destruct r as [v'|e]; [|done].
    destruct Hr as (Hok & Hc' & Hpos' & Hset').
    split_and!; [done|done| |].
    + rewrite Hpos', Hpos1, (marker_positions_update h h1) by done.
      rewrite <- app_assoc. f_equal. by destruct (is_SetLineno (deref h instr)).
    + intros o i Ho Hd.
      destruct (decide (o ∈ rest)) as [Hin|Hnin]; [by eapply Hset'|].
      apply elem_of_cons in Ho as [->|Ho]; [|done].
      rewrite Hfr2 in Hd by done. by apply Hset1.
Qed.

Lemma traverse_remove_markers h xs : ∀ s s',
  traverse h s xs = Ok s' → traverse h s (remove_markers h xs) = Ok s'.
Proof.
  unfold remove_markers.
  induction xs as [|o xs IH]; intros s s'; simpl; [done|].
  destruct (Bytecode.__iter__ h s o) as [s1|e] eqn:Ei; simpl; [|done].
  intros Ht. rewrite filter_cons. case_decide as Hm.
  - simpl. rewrite Ei. simpl. by apply IH.
  - apply IH. revert Ei Ht. unfold Bytecode.__iter__, _BaseBytecodeList.__iter__,
      Bytecode._check_instr.
    destruct (deref h o); simpl in *; try done. by intros [= ->].
Qed.

Lemma legalize_for_noop xs : ∀ h s pos v s',
  set_lineno v = None →
  (∀ o, o ∈ xs → is_SetLineno (deref h o) = false) →
  (∀ o i, o ∈ xs → deref h o = OInstr i → instr_lineno i ≠ LUnset) →
  traverse h s xs = Ok s' →
  ∃ v', legalize_for Bytecode.iter h s pos xs v = (h, Ok v') ∧
        lineno_pos v' = lineno_pos v ∧ set_lineno v' = None.
Proof.
  induction xs as [|o xs IH]; intros h s pos v s' Hs Hm Hl; simpl.
  { intros _. by exists v. }
  destruct (Bytecode.__iter__ h s o) as [s1|e] eqn:Ei; simpl; [|done].
  intros Ht.
  assert (∃ v1, legalize_body h pos o v = (h, v1) ∧
                lineno_pos v1 = lineno_pos v ∧ set_lineno v1 = None)
    as (v1 & -> & Hp1 & Hs1).
  { unfold legalize_body. specialize (Hm o (list_elem_of_here _ _)).
    specialize (Hl o). rewrite Hs.
    destruct (deref h o) as [i| |n|?|?|?|?|?]; try done; try by exists v.
    specialize (Hl i (list_elem_of_here _ _) eq_refl).
    destruct (instr_lineno i); [done|by eexists|by eexists]. }
  edestruct (IH h s1 (S pos) v1) as (v' & -> & Hp' & Hs'); [done| | |done|].
  - intros o' Ho'. apply Hm. by apply list_elem_of_further.
  - intros o' i Ho'. apply Hl. by apply list_elem_of_further.
  - exists v'. split; [done|]. split; congruence.
Qed.

(** ** [legalize]: deleting the markers *)

Lemma legalize_del_app ps qs l :
  legalize_del (ps ++ qs) l =
  match legalize_del ps l with
  | (l', Ok _) => legalize_del qs l'
  | (l', Raise e) => (l', Raise e)
  end.
Proof.
  revert l. induction ps as [|p ps IH]; intros l; simpl; [done|].
  destruct (delitem p l); [apply IH|done].
Qed.

(** Deleting the recorded positions from the last to the first never goes
    out of range and leaves the entries that are not markers. *)
Lemma legalize_del_markers h xs : ∀ pre,
  legalize_del (reverse (marker_positions h (length pre) xs)) (pre ++ xs) =
  (pre ++ remove_markers h xs, Ok tt).
Proof.
  unfold remove_markers.
  induction xs as [|o xs IH]; intros pre; simpl; [done|].
  specialize (IH (pre ++ [o])).
  rewrite length_app, Nat.add_1_r, <- app_assoc in IH. simpl in IH.
  destruct (is_SetLineno (deref h o)) eqn:Em.
  - rewrite filter_cons_False by (by rewrite Em).
    rewrite reverse_cons, legalize_del_app, IH. simpl.
    unfold delitem. rewrite decide_True.
    2:{ rewrite !length_app. simpl. lia. }
    rewrite <- app_assoc. simpl. by rewrite delete_middle.
  - rewrite filter_cons_True by done. rewrite IH. by rewrite <- app_assoc.
Qed.

Lemma legalize_unfold h c :
  Bytecode.legalize h c =
  match legalize_for Bytecode.iter h false 0 (items c)
          {| lineno_pos := []; set_lineno := None;
             current_lineno := LInt (first_lineno c) |} with
  | (h', Raise e) => (h', c, Raise e)
  | (h', Ok _) => (h', with_items c (remove_markers h (items c)), Ok tt)
  end.
Proof.
  unfold Bytecode.legalize, legalize. simpl.
  destruct (legalize_for _ _ _ _ _ _) as [h' [v|e]] eqn:Ef; [|done].
  apply legalize_for_spec in Ef as (_ & _ & _ & _ & Hp & _); [|done].
  simpl in Hp. rewrite Hp.
  pose proof (legalize_del_markers h (items c) []) as Hd. simpl in Hd.
  by rewrite Hd.
Qed.

Lemma filter_all {A} (P : A → Prop) `{∀ x, Decision (P x)} (l : list A) :
  Forall P l → filter P l = l.
Proof.
  induction 1 as [|x l Hx _ IH]; [done|].
  by rewrite filter_cons_True, IH.
Qed.

Lemma remove_markers_idemp h h' xs :
  lineno_update h h' →
  remove_markers h' (remove_markers h xs) = remove_markers h xs.
Proof.
  intros Hu. apply filter_all, list.Forall_forall. intros o Ho.
  apply list_elem_of_filter in Ho as [Ho _].
  by rewrite (is_SetLineno_update h h').
Qed.

(** ** Marker collapse, idempotence and failure of [legalize] *)

(** C3. With first line 1 and entries [SetLineno(5), A, SetLineno(9), B, C],
    where the lines of A, B and C are unset, [legalize] returns and leaves
    exactly the entries [A, B, C]; A now has line 5, B and C have line 9,
    their other fields are untouched; no entry is a [SetLineno]; the
    attributes of the container are as before. *)
Theorem C3_marker_collapse (a b c : Instr) (rest : heap) (self : bytecode) :
  first_lineno self = 1%Z →
  items self = [0; 1; 2; 3; 4] →
  instr_lineno a = LUnset → instr_lineno b = LUnset → instr_lineno c = LUnset →
  ∃ h' self',
    Bytecode.legalize
      ([OSetLineno 5; OInstr a; OSetLineno 9; OInstr b; OInstr c] ++ rest)
      self
    = (h', self', Ok tt) ∧
    items self' = [1; 3; 4] ∧
    h' !! 1 = Some (OInstr {| instr_name := instr_name a;
                              instr_arg := instr_arg a;
                              instr_lineno := LInt 5;
                              instr_location := instr_location a |}) ∧
    h' !! 3 = Some (OInstr {| instr_name := instr_name b;
                              instr_arg := instr_arg b;
                              instr_lineno := LInt 9;
                              instr_location := instr_location b |}) ∧
    h' !! 4 = Some (OInstr {| instr_name := instr_name c;
                              instr_arg := instr_arg c;
                              instr_lineno := LInt 9;
                              instr_location := instr_location c |}) ∧
    (∀ o n, o ∈ items self' → h' !! o ≠ Some (OSetLineno n)) ∧
    (argcount self', posonlyargcount self', kwonlyargcount self', flags self')
    = (argcount self, posonlyargcount self, kwonlyargcount self, flags self) ∧
    (first_lineno self', name self', filename self', docstring self')
    = (first_lineno self, name self, filename self, docstring self) ∧
    (cellvars self', freevars self', argnames self')
    = (cellvars self, freevars self, argnames self).
Proof.
  intros Hf Hi Ha Hb Hc.
  unfold Bytecode.legalize, legalize. rewrite Hi, Hf.
  eexists _, _. split; [reflexivity|].
  split_and!; try reflexivity; [|simpl; by rewrite Hf].
  intros o n. simpl. rewrite !elem_of_cons.
  intros [->|[->|[->|[]%elem_of_nil]]]; done.
Qed.

Lemma C3_marker_collapse_witness :
  let a := ex_instr "LOAD_CONST" (ArgInt 7) in
  let b := ex_instr "STORE_NAME" (ArgConst "x") in
  let c := ex_instr "RETURN_VALUE" ArgUnset in
  let self := default_code 5 [0; 1; 2; 3; 4] in
  ∃ h' self',
    Bytecode.legalize
      ([OSetLineno 5; OInstr a; OSetLineno 9; OInstr b; OInstr c]
         ++ default_names)
      self
    = (h', self', Ok tt) ∧
    items self' = [1; 3; 4] ∧
    h' !! 1 = Some (OInstr {| instr_name := instr_name a;
                              instr_arg := instr_arg a;
                              instr_lineno := LInt 5;
                              instr_location := instr_location a |}) ∧
    h' !! 3 = Some (OInstr {| instr_name := instr_name b;
                              instr_arg := instr_arg b;
                              instr_lineno := LInt 9;
                              instr_location := instr_location b |}) ∧
    h' !! 4 = Some (OInstr {| instr_name := instr_name c;
                              instr_arg := instr_arg c;
                              instr_lineno := LInt 9;
                              instr_location := instr_location c |}) ∧
    (∀ o n, o ∈ items self' → h' !! o ≠ Some (OSetLineno n)) ∧
    (argcount self', posonlyargcount self', kwonlyargcount self', flags self')
    = (argcount self, posonlyargcount self, kwonlyargcount self, flags self) ∧
    (first_lineno self', name self', filename self', docstring self')
    = (first_lineno self, name self, filename self, docstring self) ∧
    (cellvars self', freevars self', argnames self')
    = (cellvars self, freevars self, argnames self).
Proof. intros a b c self. apply C3_marker_collapse; reflexivity. Defined.

(** What a successful [legalize] leaves behind. *)
Lemma legalize_Ok h c h1 c1 :
  Bytecode.legalize h c = (h1, c1, Ok tt) →
  c1 = with_items c (remove_markers h (items c)) ∧
  lineno_update h h1 ∧
  is_Ok (traverse h false (items c)) ∧
  (∀ o i, o ∈ items c → deref h1 o = OInstr i → instr_lineno i ≠ LUnset).
Proof.
  rewrite legalize_unfold.
  destruct (legalize_for _ _ _ _ _ _) as [h' [v|e]] eqn:Ef; [|done].
  intros [= <- <-].
  apply legalize_for_spec in Ef as (Hu & _ & Hok & _ & _ & Hset); done.
Qed.

(** C6. When [legalize] succeeds, a second [legalize] succeeds too and
    changes nothing: the entry sequence, the attributes and the line numbers
    stay as the first run left them. *)
Theorem C6_legalize_idempotent h c h1 c1 :
  Bytecode.legalize h c = (h1, c1, Ok tt) →
  Bytecode.legalize h1 c1 = (h1, c1, Ok tt).
Proof.
  intros (-> & Hu & [s Hok] & Hset)%legalize_Ok.
  rewrite legalize_unfold. simpl.
  apply traverse_remove_markers in Hok.
  rewrite <- (traverse_lineno_update h h1) in Hok by done.
  edestruct (legalize_for_noop (remove_markers h (items c)) h1 false 0)
    as (v' & -> & _ & _); [| | |exact Hok|].
  - done.
  - intros o [Ho _]%list_elem_of_filter.
    by rewrite (is_SetLineno_update h h1).
  - intros o i [_ Ho]%list_elem_of_filter. by apply Hset.
  - by rewrite remove_markers_idemp.
Qed.

Lemma C6_legalize_idempotent_witness :
  Bytecode.legalize
    ([OSetLineno 5;
      OInstr (set_instr_lineno (ex_instr "LOAD_CONST" (ArgInt 7)) (LInt 5));
      OSetLineno 9; OLabel;
      OInstr (set_instr_lineno (ex_instr "RETURN_VALUE" ArgUnset) (LInt 9))]
     ++ default_names)
    (default_code 5 [1; 3; 4])
  = ([OSetLineno 5;
      OInstr (set_instr_lineno (ex_instr "LOAD_CONST" (ArgInt 7)) (LInt 5));
      OSetLineno 9; OLabel;
      OInstr (set_instr_lineno (ex_instr "RETURN_VALUE" ArgUnset) (LInt 9))]
     ++ default_names,
     default_code 5 [1; 3; 4], Ok tt).
Proof.
  apply (C6_legalize_idempotent
           ([OSetLineno 5; OInstr (ex_instr "LOAD_CONST" (ArgInt 7));
             OSetLineno 9; OLabel; OInstr (ex_instr "RETURN_VALUE" ArgUnset)]
            ++ default_names)
           (default_code 5 [0; 1; 2; 3; 4])).
  reflexivity.
Defined.

(** C9, as the code has it.  When [legalize] raises, the exception is the
    one the traversal raises, the container keeps its entries (no
    [SetLineno] is deleted) and its attributes, and the store changes only
    in the line numbers of instructions that are entries of the container. *)
Theorem C9_legalize_raise h c h' c' e :
  Bytecode.legalize h c = (h', c', Raise e) →
  c' = c ∧
  traverse h false (items c) = Raise e ∧
  lineno_update h h' ∧
  (∀ o, o ∉ items c → deref h' o = deref h o).
Proof.
  rewrite legalize_unfold.
  destruct (legalize_for _ _ _ _ _ _) as [h1 [v|e1]] eqn:Ef; [done|].
  intros [= <- <- <-].
  apply legalize_for_spec in Ef as (Hu & Hfr & Ht); done.
Qed.

Lemma C9_legalize_raise_witness :
  default_code 2 [0; 1] = default_code 2 [0; 1] ∧
  traverse ([OInstr (ex_instr "NOP" ArgUnset); OOther "int"] ++ default_names)
    false (items (default_code 2 [0; 1])) = Raise (ValueError "int") ∧
  lineno_update
    ([OInstr (ex_instr "NOP" ArgUnset); OOther "int"] ++ default_names)
    ([OInstr (set_instr_lineno (ex_instr "NOP" ArgUnset) (LInt 1));
      OOther "int"] ++ default_names) ∧
  (∀ o, o ∉ items (default_code 2 [0; 1]) →
        deref ([OInstr (set_instr_lineno (ex_instr "NOP" ArgUnset) (LInt 1));
                OOther "int"] ++ default_names) o
        = deref ([OInstr (ex_instr "NOP" ArgUnset); OOther "int"]
                 ++ default_names) o).
Proof.
  apply (C9_legalize_raise
           ([OInstr (ex_instr "NOP" ArgUnset); OOther "int"] ++ default_names)
           (default_code 2 [0; 1])).
  reflexivity.
Defined.

(** C9 as stated fails: [legalize] on the entries [NOP, 3] raises on the
    second element after it has set the line of the first. *)
Lemma C9_counterexample :
  let h := [OInstr (ex_instr "NOP" ArgUnset); OOther "int"] ++ default_names in
  ∃ h',
    Bytecode.legalize h (default_code 2 [0; 1])
    = (h', default_code 2 [0; 1], Raise (ValueError "int")) ∧
    deref h 0 = OInstr (ex_instr "NOP" ArgUnset) ∧
    deref h' 0 = OInstr (set_instr_lineno (ex_instr "NOP" ArgUnset) (LInt 1)) ∧
    deref h' 0 ≠ deref h 0.
Proof. simpl. eexists. split; [reflexivity|]. done. Qed.

(** ** Traversal and region nesting *)

Lemma drain_traverse h xs : ∀ s,
  drain Bytecode.iter h s xs =
  match traverse h s xs with
  | Ok _ => (xs, None)
  | Raise e => ((drain Bytecode.iter h s xs).1, Some e)
  end.
Proof.
  induction xs as [|o xs IH]; intros s; simpl; [done|].
  destruct (Bytecode.__iter__ h s o) as [s'|e]; simpl; [|done].
  rewrite (IH s'). destruct (traverse h s' xs); simpl; [done|].
  by destruct (drain _ _ _ _).
Qed.

Lemma traverse_app h pre post : ∀ s,
  traverse h s (pre ++ post) = (s' ← traverse h s pre; traverse h s' post).
Proof.
  induction pre as [|o pre IH]; intros s; simpl; [done|].
  destruct (Bytecode.__iter__ h s o); simpl; [apply IH|done].
Qed.

(** A traversal raises exactly at its first offending element. *)
Lemma traverse_Raise h xs e : ∀ s,
  traverse h s xs = Raise e ↔
  ∃ pre b post s1, xs = pre ++ b :: post ∧ traverse h s pre = Ok s1 ∧
                   Bytecode.__iter__ h s1 b = Raise e.
Proof.
  induction xs as [|o xs IH]; intros s; simpl.
  { split; [done|]. intros (pre & b & post & s1 & Hx & _).
    by destruct pre. }
  destruct (Bytecode.__iter__ h s o) as [s'|e'] eqn:Ei; simpl.
  - rewrite IH. split.
    + intros (pre & b & post & s1 & -> & Ht & Hb).
      exists (o :: pre), b, post, s1. simpl. by rewrite Ei.
    + intros (pre & b & post & s1 & Hx & Ht & Hb).
      destruct pre as [|o' pre]; simpl in *.
      * injection Hx as <- <-. injection Ht as <-. congruence.
      * injection Hx as <- ->. rewrite Ei in Ht. simpl in Ht.
        by exists pre, b, post, s1.
  - split.
    + intros [= ->]. exists [], o, xs, s. done.
    + intros (pre & b & post & s1 & Hx & Ht & Hb).
      destruct pre as [|o' pre]; simpl in *.
      * injection Hx as <- <-. injection Ht as <-. congruence.
      * injection Hx as <- ->. by rewrite Ei in Ht.
Qed.

Lemma iter_nested h s b :
  Bytecode.__iter__ h s b = Raise RuntimeError_nested ↔
  is_TryBegin (deref h b) = true ∧ s = true.
Proof.
  unfold Bytecode.__iter__, _BaseBytecodeList.__iter__, Bytecode._check_instr.
  destruct (deref h b); simpl; try (split; [done|by intros []]).
  destruct s; simpl; split; try done. by intros [].
Qed.

(** The state of the validator after a clean traversal. *)
Lemma traverse_region_open h pre : ∀ s s',
  traverse h s pre = Ok s' →
  s' = match list.last (filter (λ o, is_TryBegin (deref h o)
                                     || is_TryEnd (deref h o)) pre) with
       | Some o => is_TryBegin (deref h o)
       | None => s
       end.
Proof.
  induction pre as [|o pre IH]; intros s s'; simpl; [by intros [= ->]|].
  destruct (Bytecode.__iter__ h s o) as [s1|e] eqn:Ei; simpl; [|done].
  intros Ht. apply IH in Ht. revert Ei Ht.
  unfold Bytecode.__iter__, _BaseBytecodeList.__iter__, Bytecode._check_instr.
  destruct (deref h o) eqn:Eo; simpl; try done.
  - intros [= <-]. rewrite filter_cons_False; [done|]. rewrite Eo. by intros [].
  - intros [= <-]. rewrite filter_cons_False; [done|]. rewrite Eo. by intros [].
  - intros [= <-]. rewrite filter_cons_False; [done|]. rewrite Eo. by intros [].
  - destruct s; simpl; [done|]. intros [= <-].
    rewrite filter_cons_True by (by rewrite Eo). rewrite last_cons.
    intros ->. destruct (list.last _); [done|]. by rewrite Eo.
  - intros [= <-].
    rewrite filter_cons_True by (by rewrite Eo). rewrite last_cons.
    intros ->. destruct (list.last _); [done|]. by rewrite Eo.
Qed.

(** C4. A traversal raises the nesting error exactly when it reaches a
    [TryBegin] while a region is open; a [TryEnd] always closes the region;
    [Begin, Begin, End, End] fails on the second [Begin] (after yielding the
    first), [Begin, End, Begin, End] is traversed to the end, and a [TryEnd]
    with no [TryBegin] before it is accepted. *)
Theorem C4_region_nesting (h : heap) (xs : list oid) :
  ((drain Bytecode.iter h false xs).2 = Some RuntimeError_nested ↔
   ∃ pre b post,
     xs = pre ++ b :: post ∧
     drain Bytecode.iter h false pre = (pre, None) ∧
     is_TryBegin (deref h b) = true ∧
     region_open h pre = true) ∧
  (∀ seen e, is_TryEnd (deref h e) = true →
             Bytecode.__iter__ h seen e = Ok false) ∧
  (∀ r1 r2 r3 r4,
     drain Bytecode.iter
       [OTryBegin r1; OTryBegin r2; OTryEnd r3; OTryEnd r4] false [0; 1; 2; 3]
     = ([0], Some RuntimeError_nested)) ∧
  (∀ r1 r2 r3 r4,
     drain Bytecode.iter
       [OTryBegin r1; OTryEnd r2; OTryBegin r3; OTryEnd r4] false [0; 1; 2; 3]
     = ([0; 1; 2; 3], None)) ∧
  (∀ r, drain Bytecode.iter [OTryEnd r] false [0] = ([0], None)).
Proof.
  split_and!; [|
    intros seen e; unfold Bytecode.__iter__, _BaseBytecodeList.__iter__,
      Bytecode._check_instr; by destruct (deref h e)
    |done|done|done].
  rewrite drain_traverse.
  destruct (traverse h false xs) as [s|e] eqn:Et; simpl.
  - split; [done|]. intros (pre & b & post & -> & Hd & Hb & Ho).
    rewrite drain_traverse in Hd.
    destruct (traverse h false pre) as [s1|] eqn:Ep; [|done].
    rewrite traverse_app in Et. rewrite Ep in Et. simpl in Et.
    apply traverse_region_open in Ep. unfold region_open in Ho.
    rewrite Ho in Ep. subst s1.
    assert (Bytecode.__iter__ h true b = Raise RuntimeError_nested) as Hr
      by by apply iter_nested.
    by rewrite Hr in Et.
  - split.
    + intros [= ->]. apply traverse_Raise in Et
        as (pre & b & post & s1 & -> & Hp & [Hb ->]%iter_nested).
      exists pre, b, post. split_and!; [done| |done|].
      * rewrite drain_traverse. by rewrite Hp.
      * apply traverse_region_open in Hp. by unfold region_open.
    + intros (pre & b & post & -> & Hd & Hb & Ho).
      rewrite drain_traverse in Hd.
      destruct (traverse h false pre) as [s1|] eqn:Ep; [|done].
      rewrite traverse_app in Et. rewrite Ep in Et. simpl in Et.
      apply traverse_region_open in Ep. unfold region_open in Ho.
      rewrite Ho in Ep. subst s1.
      assert (Bytecode.__iter__ h true b = Raise RuntimeError_nested) as Hr
        by by apply iter_nested.
      rewrite Hr in Et. simpl in Et. congruence.
Qed.

(** ** Flattening *)

Import _InstrList.

(** The method resolution order of [Bytecode], and the methods that the
    definitions above rely on. *)
Lemma mro_Bytecode :
  mro cls_Bytecode =
  [cls_Bytecode; cls_InstrList; cls_BaseBytecodeList; cls_BaseBytecode;
   cls_list; cls_Generic; cls_object].
Proof. by vm_compute. Qed.

Lemma resolve_Bytecode_eq : resolve cls_Bytecode "__eq__" = Some cls_InstrList.
Proof. by vm_compute. Qed.

Lemma resolve_Bytecode_methods :
  resolve cls_Bytecode "__iter__" = Some cls_Bytecode ∧
  super_resolve cls_Bytecode cls_Bytecode "__iter__"
  = Some cls_BaseBytecodeList ∧
  super_resolve cls_Bytecode cls_BaseBytecodeList "__iter__" = Some cls_list ∧
  resolve cls_Bytecode "_check_instr" = Some cls_Bytecode ∧
  resolve cls_Bytecode "legalize" = Some cls_BaseBytecodeList ∧
  resolve cls_Bytecode "copy" = Some cls_BaseBytecodeList ∧
  super_resolve cls_Bytecode cls_BaseBytecodeList "copy" = Some cls_list ∧
  resolve cls_Bytecode "_copy_attr_from" = Some cls_Bytecode ∧
  super_resolve cls_Bytecode cls_Bytecode "_copy_attr_from"
  = Some cls_BaseBytecode ∧
  resolve cls_Bytecode "_flat" = Some cls_InstrList.
Proof. by vm_compute. Qed.

(** [==] on a [Bytecode] runs [_InstrList.__eq__]: [BaseBytecode.__eq__]
    comes later in the method resolution order and is never reached. *)
Lemma Bytecode_eq_unfold cs h self other :
  Bytecode.__eq__ cs h self other =
  _InstrList.__eq__ Bytecode.iter Bytecode.iter h (items self) other.
Proof. unfold Bytecode.__eq__. by rewrite resolve_Bytecode_eq. Qed.

Lemma item_eq_refl h x : item_eq h x x = true.
Proof.
  destruct x; simpl; rewrite ?bool_decide_eq_true_2; done.
Qed.

Lemma list_eq_refl h l : list_eq h l l = true.
Proof. induction l as [|x l IH]; simpl; [done|]. by rewrite item_eq_refl. Qed.

Lemma flat_for_list h xs : ∀ s index v,
  flat_for list_iter h s index xs v = Ok (flat_fold h index xs v).
Proof. induction xs as [|o xs IH]; intros s index v; simpl; [done|apply IH]. Qed.

Lemma flat_for_Bytecode h xs : ∀ s index v,
  flat_for Bytecode.iter h s index xs v =
  (_ ← traverse h s xs; Ok (flat_fold h index xs v)).
Proof.
  induction xs as [|o xs IH]; intros s index v; simpl; [done|].
  destruct (Bytecode.__iter__ h s o); simpl; [apply IH|done].
Qed.

Lemma flat_list_unfold h xs :
  _flat list_iter h xs =
  (let v := flat_fold h 0 xs flat_init in
   flat_resolve (jumps v) (labels v) (instructions v)).
Proof. unfold _flat. by rewrite flat_for_list. Qed.

Lemma flat_Bytecode_unfold h xs :
  _flat Bytecode.iter h xs =
  (_ ← traverse h false xs; _flat list_iter h xs).
Proof.
  rewrite flat_list_unfold. unfold _flat. rewrite flat_for_Bytecode. simpl.
  by destruct (traverse h false xs).
Qed.

(** The targets recorded by the first loop, and the labels it has seen. *)
Lemma flat_fold_jumps h xs : ∀ index v,
  (jumps (flat_fold h index xs v)).*1 = (jumps v).*1 ++ target_labels h xs.
Proof.
  unfold target_labels.
  induction xs as [|o xs IH]; intros index v; simpl; [by rewrite app_nil_r|].
  rewrite IH. unfold flat_body, target_of.
  destruct (deref h o) as [i| | | | | | |]; simpl; try done.
  destruct (instr_arg i); simpl; try done.
  by rewrite fmap_app, <- app_assoc.
Qed.

Lemma flat_fold_labels h xs l : ∀ index v,
  is_Some (labels (flat_fold h index xs v) !! l) ↔
  is_Some (labels v !! l) ∨ l ∈ entry_labels h xs.
Proof.
  unfold entry_labels.
  induction xs as [|o xs IH]; intros index v; simpl.
  { rewrite filter_nil, elem_of_nil. tauto. }
  rewrite IH. unfold flat_body.
  destruct (decide (deref h o = OLabel)) as [E|E].
  - rewrite E, filter_cons_True by done. simpl.
    rewrite elem_of_cons, lookup_insert_is_Some.
    destruct (decide (o = l)) as [->|]; intuition congruence.
  - rewrite filter_cons_False by done.
    destruct (deref h o) as [i| | | | | | |]; simpl; try done.
    by destruct (instr_arg i).
Qed.

Lemma flat_resolve_Raise js lbls : ∀ l t,
  t ∈ js.*1 → lbls !! t = None →
  ∃ t', flat_resolve js lbls l = Raise (KeyError t') ∧
        t' ∈ js.*1 ∧ lbls !! t' = None.
Proof.
  induction js as [|[t0 pos] js IH]; intros l t Ht Hn; simpl in *.
  { by apply elem_of_nil in Ht. }
  destruct (lbls !! t0) as [n|] eqn:E0.
  - apply elem_of_cons in Ht as [->|Ht]; [congruence|].
    destruct (IH (alter (set_arg n) pos l) t Ht Hn) as (t' & -> & Ht' & Hn').
    exists t'. split_and!; [done| |done]. by apply list_elem_of_further.
  - exists t0. split_and!; [done| |done]. apply list_elem_of_here.
Qed.

Lemma flat_resolve_Ok js lbls : ∀ l,
  (∀ t, t ∈ js.*1 → is_Some (lbls !! t)) → is_Ok (flat_resolve js lbls l).
Proof.
  induction js as [|[t0 pos] js IH]; intros l Hall; simpl in *; [by eexists|].
  destruct (Hall t0) as [n ->]; [apply list_elem_of_here|].
  apply IH. intros t Ht. apply Hall. by apply list_elem_of_further.
Qed.

(** Flattening a plain list succeeds exactly when every label referred to
    is among the entries. *)
Lemma flat_list_Ok h xs :
  is_Ok (_flat list_iter h xs) ↔
  ∀ l, l ∈ target_labels h xs → l ∈ entry_labels h xs.
Proof.
  rewrite flat_list_unfold. simpl. split.
  - intros [f Hf] l Hl.
    destruct (decide (l ∈ entry_labels h xs)) as [|Hn]; [done|].
    edestruct (flat_resolve_Raise (jumps (flat_fold h 0 xs flat_init))
                 (labels (flat_fold h 0 xs flat_init))
                 (instructions (flat_fold h 0 xs flat_init)) l)
      as (t' & Hr & _).
    + by rewrite flat_fold_jumps.
    + apply eq_None_not_Some. rewrite flat_fold_labels. simpl.
      rewrite lookup_empty. intros [[? [=]]|?]. done.
    + congruence.
  - intros Hall. apply flat_resolve_Ok. intros t.
    rewrite flat_fold_jumps, flat_fold_labels. simpl. intros Ht.
    right. by apply Hall.
Qed.

Lemma flat_list_Raise h xs :
  ¬ is_Ok (_flat list_iter h xs) →
  ∃ l, _flat list_iter h xs = Raise (KeyError l) ∧
       l ∈ target_labels h xs ∧ l ∉ entry_labels h xs.
Proof.
  intros Hno.
  destruct (decide (Forall (λ l, l ∈ entry_labels h xs) (target_labels h xs)))
    as [Hall|Hex].
  { destruct Hno. apply flat_list_Ok. by apply list.Forall_forall. }
  apply not_Forall_Exists in Hex; [|apply _].
  apply Exists_exists in Hex as (l & Hl & Hn).
  rewrite flat_list_unfold. simpl.
  edestruct (flat_resolve_Raise (jumps (flat_fold h 0 xs flat_init))
               (labels (flat_fold h 0 xs flat_init))
               (instructions (flat_fold h 0 xs flat_init)) l)
    as (t' & Hr & Ht' & Hn').
  - by rewrite flat_fold_jumps.
  - apply eq_None_not_Some. rewrite flat_fold_labels. simpl.
    rewrite lookup_empty. intros [[? [=]]|?]. done.
  - exists t'. split; [done|]. rewrite flat_fold_jumps in Ht'. simpl in Ht'.
    split; [done|]. intros Hin.
    assert (is_Some (labels (flat_fold h 0 xs flat_init) !! t')) as [? ?];
      [|congruence].
    apply flat_fold_labels. by right.
Qed.

(** ** Equality *)

Lemma eq_Bytecode_Bytecode cs h a b :
  Bytecode.__eq__ cs h a (VBytecode b) =
  (f1 ← _flat Bytecode.iter h (items a);
   f2 ← _flat Bytecode.iter h (items b);
   Ok (list_eq h f1 f2)).
Proof. by rewrite Bytecode_eq_unfold. Qed.

(** What [BaseBytecode.__eq__] would require, were it the method found. *)
Lemma BaseBytecode_eq_true cs h a b :
  BaseBytecode.__eq__ cs h a (VBytecode b) = Ok true →
  argcount a = argcount b ∧ posonlyargcount a = posonlyargcount b ∧
  kwonlyargcount a = kwonlyargcount b ∧ flags a = flags b ∧
  first_lineno a = first_lineno b ∧ filename a = filename b ∧
  name a = name b ∧ docstring a = docstring b ∧
  names_of h (cellvars a) = names_of h (cellvars b) ∧
  names_of h (freevars a) = names_of h (freevars b) ∧
  ∃ n, cs h a = Ok n ∧ cs h b = Ok n.
Proof.
  unfold BaseBytecode.__eq__.
  repeat (case_decide; [done|]).
  destruct (cs h a) as [n|]; simpl; [|done].
  destruct (cs h b) as [m|]; simpl; [|done].
  case_decide as Hnm; [done|]. intros _. subst m.
  split_and!; try done; try (by apply dec_stable). by exists n.
Qed.

(** Flattening a [Bytecode] succeeds exactly when its traversal is clean and
    every label referred to is among the entries. *)
Lemma flat_Bytecode_Ok h xs :
  is_Ok (_flat Bytecode.iter h xs) ↔
  is_Ok (traverse h false xs) ∧
  ∀ l, l ∈ target_labels h xs → l ∈ entry_labels h xs.
Proof.
  rewrite flat_Bytecode_unfold, <- flat_list_Ok.
  destruct (traverse h false xs) as [s|e]; simpl.
  - split; [intros H; split; [by eexists|done]|by intros [_ H]].
  - split; [by intros [? [=]]|by intros [[? [=]] _]].
Qed.

(** C1, as the code has it.  Two [Bytecode] objects compare equal exactly
    when both flatten and the flattened sequences are equal; the attributes
    and the stack size are not consulted, so the result is the same for any
    attributes and any stack-size analysis. *)
Theorem C1_eq_flat_only cs h a b :
  (Bytecode.__eq__ cs h a (VBytecode b) = Ok true ↔
   ∃ f1 f2, _flat Bytecode.iter h (items a) = Ok f1 ∧
            _flat Bytecode.iter h (items b) = Ok f2 ∧
            list_eq h f1 f2 = true) ∧
  (∀ cs' a' b',
     Bytecode.__eq__ cs' h (with_items a' (items a))
       (VBytecode (with_items b' (items b)))
     = Bytecode.__eq__ cs h a (VBytecode b)).
Proof.
  split; [|intros; by rewrite !eq_Bytecode_Bytecode].
  rewrite eq_Bytecode_Bytecode.
  destruct (_flat Bytecode.iter h (items a)) as [f1|e1]; simpl.
  2:{ split; [done|]. by intros (? & ? & [=] & _). }
  destruct (_flat Bytecode.iter h (items b)) as [f2|e2]; simpl.
  2:{ split; [done|]. by intros (? & ? & _ & [=] & _). }
  split.
  - intros [= Heq]. by exists f1, f2.
  - intros (? & ? & [= <-] & [= <-] & ->). done.
Qed.

(** C1 as stated fails: two containers that differ in every attribute and
    hold the same entries compare equal, while [BaseBytecode.__eq__] would
    have told them apart. *)
Lemma C1_counterexample :
  let h := [OInstr (ex_instr "NOP" ArgUnset); ONames []; ONames [];
            ONames []; ONames ["x"]; ONames ["y"]; ONames ["a"]] in
  let c1 := default_code 1 [0] in
  let c2 := {| argcount := 1; posonlyargcount := 1; kwonlyargcount := 1;
               first_lineno := 10; name := "f"; filename := "f.py";
               docstring := DocStr "doc"; cellvars := 4; freevars := 5;
               flags := 32; argnames := 6; items := [0] |} in
  Bytecode.__eq__ ex_stacksize h c1 (VBytecode c2) = Ok true ∧
  BaseBytecode.__eq__ ex_stacksize h c1 (VBytecode c2) = Ok false ∧
  argcount c1 ≠ argcount c2 ∧ name c1 ≠ name c2 ∧
  names_of h (cellvars c1) ≠ names_of h (cellvars c2).
Proof. by vm_compute. Qed.

(** C5, as the code has it.  When an instruction of the container refers to
    a label that is not among the entries, flattening never returns: if the
    traversal itself is clean the exception is the [KeyError] of such a
    label, otherwise it is the exception of the traversal; and [==] on the
    container raises whatever it is compared with. *)
Theorem C5_unresolved_label h xs o l :
  o ∈ xs → target_of h o = Some l → l ∉ entry_labels h xs →
  ¬ is_Ok (_flat Bytecode.iter h xs) ∧
  (is_Ok (traverse h false xs) →
   ∃ l', _flat Bytecode.iter h xs = Raise (KeyError l') ∧
         l' ∈ target_labels h xs ∧ l' ∉ entry_labels h xs) ∧
  (∀ cs self other,
     items self = xs → ¬ is_Ok (Bytecode.__eq__ cs h self other)) ∧
  (∀ e, traverse h false xs = Raise e → _flat Bytecode.iter h xs = Raise e).
Proof.
  intros Ho Ht Hl.
  assert (¬ is_Ok (_flat list_iter h xs)) as Hlist.
  { rewrite flat_list_Ok. intros Hall. apply Hl, Hall.
    unfold target_labels. apply list_elem_of_omap. by exists o. }
  assert (¬ is_Ok (_flat Bytecode.iter h xs)) as Hno.
  { rewrite flat_Bytecode_unfold.
    destruct (traverse h false xs); simpl; [done|by intros [? [=]]]. }
  split_and!; [done| | |].
  3:{ intros e He. by rewrite flat_Bytecode_unfold, He. }
  - intros [s Hs]. rewrite flat_Bytecode_unfold, Hs. simpl.
    by apply flat_list_Raise.
  - intros cs self other <-. rewrite Bytecode_eq_unfold.
    unfold _InstrList.__eq__.
    destruct other; simpl; try (by intros [? [=]]);
      destruct (_flat Bytecode.iter h (items self)) eqn:E; simpl;
      try (by intros [? [=]]); destruct Hno; by eexists.
Qed.

Lemma C5_unresolved_label_witness :
  let h := [OInstr (ex_instr "JUMP_FORWARD" (ArgLabel 1)); OLabel] ++ default_names in
  ¬ is_Ok (_flat Bytecode.iter h [0]) ∧
  (is_Ok (traverse h false [0]) →
   ∃ l', _flat Bytecode.iter h [0] = Raise (KeyError l') ∧
         l' ∈ target_labels h [0] ∧ l' ∉ entry_labels h [0]) ∧
  (∀ cs self other,
     items self = [0] → ¬ is_Ok (Bytecode.__eq__ cs h self other)) ∧
  (∀ e, traverse h false [0] = Raise e → _flat Bytecode.iter h [0] = Raise e).
Proof.
  apply (C5_unresolved_label _ [0] 0 1).
  - apply list_elem_of_here.
  - reflexivity.
  - vm_compute. apply not_elem_of_nil.
Defined.

(** C5 as stated fails: when the container also opens a region inside an
    open region, flattening raises the nesting error, not the error of the
    unresolved label. *)
Lemma C5_counterexample :
  let h := [OTryBegin 0; OTryBegin 1;
            OInstr (ex_instr "JUMP_FORWARD" (ArgLabel 3)); OLabel]
           ++ default_names in
  target_of h 2 = Some 3 ∧ (3 ∉ entry_labels h [0; 1; 2]) ∧
  _flat Bytecode.iter h [0; 1; 2] = Raise RuntimeError_nested ∧
  ∀ l, _flat Bytecode.iter h [0; 1; 2] ≠ Raise (KeyError l).
Proof.
  split_and!; [done|vm_compute; apply not_elem_of_nil|done|done].
Qed.



(** ** Construction and copy *)

Lemma check_instr_spec h o :
  Bytecode._check_instr h o =
  if is_entry (deref h o) then Ok tt
  else Raise (ValueError (type_name (deref h o))).
Proof. unfold Bytecode._check_instr. by destruct (deref h o). Qed.

Lemma init_for_list h xs : ∀ s,
  Bytecode.init_for list_iter h s xs =
  match List.find (λ o, negb (is_entry (deref h o))) xs with
  | Some o => Raise (ValueError (type_name (deref h o)))
  | None => Ok tt
  end.
Proof.
  induction xs as [|o xs IH]; intros s; simpl; [done|].
  rewrite check_instr_spec.
  destruct (is_entry (deref h o)); simpl; [apply IH|done].
Qed.

Lemma drain_list h xs : ∀ s, drain list_iter h s xs = (xs, None).
Proof. induction xs as [|o xs IH]; intros s; simpl; [done|]. by rewrite IH. Qed.

Lemma find_ext {A} (f g : A → bool) (l : list A) :
  Forall (λ x, f x = g x) l → List.find f l = List.find g l.
Proof.
  induction 1 as [|x l Hx _ IH]; simpl; [done|]. by rewrite Hx, IH.
Qed.

Lemma init_spec h xs :
  Forall (λ o, o < length h) xs →
  Bytecode.__init__ list_iter h xs =
  (h ++ default_names,
   match List.find (λ o, negb (is_entry (deref h o))) xs with
   | Some o => Raise (ValueError (type_name (deref h o)))
   | None => Ok (default_code (length h) xs)
   end).
Proof.
  intros Hwf. unfold Bytecode.__init__, BaseBytecode.__init__, alloc. simpl.
  rewrite <- !app_assoc. simpl. f_equal.
  rewrite init_for_list, drain_list.
  rewrite (find_ext _ (λ o, negb (is_entry (deref h o)))).
  2:{ eapply Forall_impl; [exact Hwf|]. intros o Ho. simpl.
      change (h ++ [ONames []; ONames []; ONames []])
        with (h ++ default_names).
      by rewrite deref_app_l. }
  destruct (List.find _ xs) as [o|] eqn:Ef; simpl.
  - apply List.find_some in Ef as [Hin _].
    assert (o < length h) as Ho.
    { rewrite list.Forall_forall in Hwf. apply Hwf.
      by apply list_elem_of_In. }
    change (h ++ [ONames []; ONames []; ONames []])
      with (h ++ default_names).
    by rewrite deref_app_l.
  - unfold default_code, with_items. simpl. rewrite !length_app. simpl.
    do 3 f_equal; lia.
Qed.

Lemma traverse_ext h h' xs :
  Forall (λ o, deref h' o = deref h o) xs →
  ∀ s, traverse h' s xs = traverse h s xs.
Proof.
  induction 1 as [|o xs Ho _ IH]; intros s; simpl; [done|].
  replace (Bytecode.__iter__ h' s o) with (Bytecode.__iter__ h s o).
  2:{ unfold Bytecode.__iter__, _BaseBytecodeList.__iter__,
        Bytecode._check_instr. by rewrite Ho. }
  destruct (Bytecode.__iter__ h s o); simpl; [apply IH|done].
Qed.

Lemma flat_fold_ext h h' xs :
  Forall (λ o, deref h' o = deref h o) xs →
  ∀ index v, flat_fold h' index xs v = flat_fold h index xs v.
Proof.
  induction 1 as [|o xs Ho _ IH]; intros index v; simpl; [done|].
  unfold flat_body. by rewrite Ho, IH.
Qed.

Lemma flat_ext h h' xs :
  Forall (λ o, deref h' o = deref h o) xs →
  _flat Bytecode.iter h' xs = _flat Bytecode.iter h xs.
Proof.
  intros Hx. rewrite !flat_Bytecode_unfold, !flat_list_unfold.
  by rewrite (traverse_ext h h'), (flat_fold_ext h h').
Qed.

Lemma names_of_app_l (h k : heap) o :
  o < length h → names_of (h ++ k) o = names_of h o.
Proof. intros Ho. unfold names_of. by rewrite deref_app_l. Qed.

Lemma names_of_app_r (h k : heap) n xs :
  k !! n = Some (ONames xs) → names_of (h ++ k) (length h + n) = xs.
Proof.
  intros Hk. unfold names_of, deref.
  rewrite lookup_app_r by lia.
  replace (length h + n - length h) with n by lia. by rewrite Hk.
Qed.

Lemma deref_names_append h o x o' :
  o ≠ o' → deref (names_append h o x) o' = deref h o'.
Proof.
  intros Hne. unfold names_append.
  destruct (h !! o) as [[]|]; try done. by apply deref_insert_ne.
Qed.

Lemma snapshot_ext h h' c :
  deref h' (cellvars c) = deref h (cellvars c) →
  deref h' (freevars c) = deref h (freevars c) →
  deref h' (argnames c) = deref h (argnames c) →
  Forall (λ o, deref h' o = deref h o) (items c) →
  snapshot h' c = snapshot h c.
Proof.
  intros Hc Hf Ha Hi. unfold snapshot, names_of. rewrite Hc, Hf, Ha.
  f_equal. by apply Forall_fmap_ext_1.
Qed.

Lemma snapshot_app h k c : wf_bytecode h c → snapshot (h ++ k) c = snapshot h c.
Proof.
  intros (Hcv & Hfv & Han & Hit).
  apply snapshot_ext; rewrite ?deref_app_l; try done.
  eapply Forall_impl; [exact Hit|]. intros o Ho. by apply deref_app_l.
Qed.

(** Appending to a list allocated after [c] is not seen through [c]. *)
Lemma snapshot_names_append_fresh h k c n x :
  wf_bytecode h c →
  snapshot (names_append (h ++ k) (length h + n) x) c = snapshot h c.
Proof.
  intros Hwf. rewrite <- (snapshot_app h k c Hwf).
  destruct Hwf as (Hcv & Hfv & Han & Hit).
  apply snapshot_ext; rewrite ?deref_names_append; try done; try lia.
  eapply Forall_impl; [exact Hit|]. intros o Ho. simpl in *.
  apply deref_names_append. lia.
Qed.

(** The store and the container that a successful [copy] returns. *)
Lemma copy_Ok h c h' c2 :
  wf_bytecode h c →
  Bytecode.copy h c = (h', Ok c2) →
  h' = h ++ default_names
         ++ [ONames (names_of h (cellvars c));
             ONames (names_of h (freevars c))] ∧
  c2 = {| argcount := argcount c; posonlyargcount := posonlyargcount c;
          kwonlyargcount := kwonlyargcount c;
          first_lineno := first_lineno c; name := name c;
          filename := filename c; docstring := docstring c;
          cellvars := length h + 3; freevars := length h + 4;
          flags := flags c; argnames := argnames c; items := items c |}.
Proof.
  intros (Hcv & Hfv & Han & Hit).
  unfold Bytecode.copy, copy. rewrite init_spec by done.
  destruct (List.find _ _); [done|].
  unfold Bytecode._copy_attr_from, BaseBytecode._copy_attr_from, alloc.
  simpl. intros [= <- <-].
  rewrite !names_of_app_l by (rewrite ?length_app; simpl; lia).
  rewrite <- !app_assoc. simpl. split; [done|].
  rewrite !length_app. simpl. f_equal; lia.
Qed.

(** C7, as the code has it.  A successful copy [C2] of [C] holds the same
    entry objects in a list of its own, has the attributes of [C] by value
    and leaves [C] as it was; [C == C2] is true whenever [C] flattens; the
    lists [cellvars] and [freevars] of [C2] are new objects, so appending to
    them is not seen through [C]; the entries are shared, so after a change
    to an instruction both containers show the same entries. *)
Theorem C7_copy cs h c h' c2 :
  wf_bytecode h c →
  Bytecode.copy h c = (h', Ok c2) →
  items c2 = items c ∧
  snapshot h' c2 = snapshot h c ∧
  snapshot h' c = snapshot h c ∧
  (is_Ok (_flat Bytecode.iter h (items c)) →
   Bytecode.__eq__ cs h' c (VBytecode c2) = Ok true) ∧
  length h ≤ cellvars c2 ∧ length h ≤ freevars c2 ∧
  cellvars c2 ≠ freevars c2 ∧
  (∀ x, snapshot (names_append h' (cellvars c2) x) c = snapshot h c) ∧
  (∀ x, snapshot (names_append h' (freevars c2) x) c = snapshot h c) ∧
  (∀ o v, deref (setattr_lineno h' o v) <$> items c
          = deref (setattr_lineno h' o v) <$> items c2).
Proof.
  intros Hwf Hc. pose proof Hwf as (Hcv & Hfv & Han & Hit).
  apply copy_Ok in Hc as [-> ->]; [|done]. simpl.
  assert (∀ k, Forall (λ o, deref (h ++ k) o = deref h o) (items c)) as Hext.
  { intros k. eapply Forall_impl; [exact Hit|]. intros o Ho.
    by apply deref_app_l. }
  split_and!; try done; try lia.
  - unfold snapshot. simpl. f_equal; [f_equal|].
    + f_equal; [f_equal|].
      * by apply names_of_app_r.
      * by apply names_of_app_r.
      * by apply names_of_app_l.
    + by apply Forall_fmap_ext_1.
  - by apply snapshot_app.
  - intros [f Hf]. rewrite eq_Bytecode_Bytecode. simpl.
    rewrite (flat_ext h) by done. rewrite Hf. simpl.
    by rewrite list_eq_refl.
  - intros x. by apply snapshot_names_append_fresh.
  - intros x. by apply snapshot_names_append_fresh.
Qed.

Lemma C7_copy_witness :
  let h := [OInstr (ex_instr "NOP" ArgUnset); OLabel;
            ONames ["x"]; ONames []; ONames ["a"]] in
  let c := default_code 2 [0; 1] in
  let h' := h ++ default_names ++ [ONames ["x"]; ONames []] in
  let c2 := {| argcount := 0; posonlyargcount := 0; kwonlyargcount := 0;
               first_lineno := 1; name := "<module>";
               filename := "<string>"; docstring := DocUnset;
               cellvars := 8; freevars := 9; flags := 0; argnames := 4;
               items := [0; 1] |} in
  items c2 = items c ∧
  snapshot h' c2 = snapshot h c ∧
  snapshot h' c = snapshot h c ∧
  (is_Ok (_flat Bytecode.iter h (items c)) →
   Bytecode.__eq__ ex_stacksize h' c (VBytecode c2) = Ok true) ∧
  length h ≤ cellvars c2 ∧ length h ≤ freevars c2 ∧
  cellvars c2 ≠ freevars c2 ∧
  (∀ x, snapshot (names_append h' (cellvars c2) x) c = snapshot h c) ∧
  (∀ x, snapshot (names_append h' (freevars c2) x) c = snapshot h c) ∧
  (∀ o v, deref (setattr_lineno h' o v) <$> items c
          = deref (setattr_lineno h' o v) <$> items c2).
Proof.
  intros h c h' c2. apply (C7_copy ex_stacksize h c h' c2).
  - unfold wf_bytecode. simpl. split_and!; [lia|lia|lia|].
    repeat (constructor; [lia|]). constructor.
  - reflexivity.
Defined.

(** C7 as stated fails: the copy holds the same instruction objects, so
    setting the line of an instruction through the copy changes the
    instruction of the original. *)
Lemma C7_counterexample :
  let h := [OInstr (ex_instr "NOP" ArgUnset)] ++ default_names in
  let c := default_code 1 [0] in
  let h' := h ++ default_names ++ [ONames []; ONames []] in
  let c2 := {| argcount := 0; posonlyargcount := 0; kwonlyargcount := 0;
               first_lineno := 1; name := "<module>";
               filename := "<string>"; docstring := DocUnset;
               cellvars := 7; freevars := 8; flags := 0; argnames := 3;
               items := [0] |} in
  Bytecode.copy h c = (h', Ok c2) ∧
  items c2 !! 0 = Some 0 ∧
  deref h' <$> items c = [OInstr (ex_instr "NOP" ArgUnset)] ∧
  deref (setattr_lineno h' 0 (LInt 7)) <$> items c
  = [OInstr (set_instr_lineno (ex_instr "NOP" ArgUnset) (LInt 7))] ∧
  snapshot (setattr_lineno h' 0 (LInt 7)) c ≠ snapshot h' c.
Proof. by vm_compute. Qed.

(** * Further properties *)

(** ** [legalize]: outcome *)

Lemma legalize_for_fold it xs : ∀ h (s : it_state it) pos v h' v',
  legalize_for it h s pos xs v = (h', Ok v') →
  legalize_fold h pos xs v = (h', v').
Proof.
  induction xs as [|o xs IH]; intros h s pos v h' v'; simpl.
  { by intros [= <- <-]. }
  destruct (it_next it h s o) as [s'|e]; [|done].
  destruct (legalize_body h pos o v) as [h1 v1]. apply IH.
Qed.

Lemma legalize_fold_spec xs : ∀ h pos v h' v',
  current_lineno v ≠ LUnset →
  legalize_fold h pos xs v = (h', v') →
  lineno_update h h' ∧ current_lineno v' ≠ LUnset ∧
  (∀ o, o ∉ xs → deref h' o = deref h o).
Proof.
  induction xs as [|o xs IH]; intros h pos v h' v' Hc; simpl.
  { intros [= <- <-]. split_and!; [apply lineno_update_refl|done|done]. }
  destruct (legalize_body h pos o v) as [h1 v1] eqn:Eb.
  apply legalize_body_spec in Eb as (Hu1 & Hc1 & Hfr1 & _ & _); [|done].
  intros Ef. apply IH in Ef as (Hu2 & Hc2 & Hfr2); [|done].
  split_and!; [by eapply lineno_update_trans|done|].
  intros o' [Hne Ho']%not_elem_of_cons. by rewrite Hfr2, Hfr1.
Qed.

Lemma legalize_fold_app xs ys : ∀ h pos v,
  legalize_fold h pos (xs ++ ys) v =
  let '(h1, v1) := legalize_fold h pos xs v in
  legalize_fold h1 (pos + length xs) ys v1.
Proof.
  induction xs as [|o xs IH]; intros h pos v; simpl.
  { by rewrite Nat.add_0_r. }
  destruct (legalize_body h pos o v) as [h1 v1].
  rewrite IH. destruct (legalize_fold h1 (S pos) xs v1).
  by rewrite Nat.add_succ_r.
Qed.



(** X2. After a successful [legalize], no entry of the container is a
    [SetLineno] and every instruction among the entries has a line number
    (its line is not the unset sentinel). *)
Theorem legalize_lines_set h c h1 c1 :
  Bytecode.legalize h c = (h1, c1, Ok tt) →
  Forall (λ o, is_SetLineno (deref h1 o) = false) (items c1) ∧
  ∀ o i, o ∈ items c1 → deref h1 o = OInstr i → instr_lineno i ≠ LUnset.
Proof.
  intros (-> & Hu & _ & Hset)%legalize_Ok. simpl. split.
  - apply list.Forall_forall. intros o [Ho _]%list_elem_of_filter.
    by rewrite (is_SetLineno_update h h1).
  - intros o i [_ Ho]%list_elem_of_filter. by apply Hset.
Qed.

Lemma legalize_lines_set_witness :
  let h := [OSetLineno 5; OInstr (ex_instr "LOAD_CONST" (ArgInt 7));
            OLabel; OInstr (ex_instr "RETURN_VALUE" ArgUnset)]
           ++ default_names in
  let h1 := [OSetLineno 5;
             OInstr (set_instr_lineno (ex_instr "LOAD_CONST" (ArgInt 7))
                       (LInt 5));
             OLabel;
             OInstr (set_instr_lineno (ex_instr "RETURN_VALUE" ArgUnset)
                       (LInt 5))] ++ default_names in
  Forall (λ o, is_SetLineno (deref h1 o) = false)
    (items (default_code 4 [1; 2; 3])) ∧
  ∀ o i, o ∈ items (default_code 4 [1; 2; 3]) →
         deref h1 o = OInstr i → instr_lineno i ≠ LUnset.
Proof.
  intros h h1.
  apply (legalize_lines_set h (default_code 4 [0; 1; 2; 3]) h1
           (default_code 4 [1; 2; 3])).
  reflexivity.
Defined.

(** X3. A container that holds no [SetLineno], whose instructions all have
    a line number and whose traversal is clean is left as it is by
    [legalize]: same store, same entries, same attributes. *)
Theorem legalize_legal_noop h c :
  Forall (λ o, is_SetLineno (deref h o) = false) (items c) →
  (∀ o i, o ∈ items c → deref h o = OInstr i → instr_lineno i ≠ LUnset) →
  is_Ok (traverse h false (items c)) →
  Bytecode.legalize h c = (h, c, Ok tt).
Proof.
  intros Hm Hl [s Hs]. rewrite legalize_unfold.
  edestruct (legalize_for_noop (items c) h false 0) as (v' & -> & _);
    [| | |exact Hs|].
  - done.
  - by apply list.Forall_forall.
  - done.
  - unfold remove_markers. rewrite filter_all by done. by destruct c.
Qed.

Lemma legalize_legal_noop_witness :
  let h := [OInstr (set_instr_lineno (ex_instr "NOP" ArgUnset) (LInt 3));
            OTryBegin 0; OLabel; OTryEnd 0] ++ default_names in
  Bytecode.legalize h (default_code 4 [0; 1; 2; 3])
  = (h, default_code 4 [0; 1; 2; 3], Ok tt).
Proof.
  intros h. apply legalize_legal_noop.
  - repeat constructor.
  - intros o i Ho Hd. vm_compute in Ho.
    repeat (apply elem_of_cons in Ho as [->|Ho];
            [vm_compute in Hd; try discriminate|]).
    + injection Hd as <-. done.
    + by apply elem_of_nil in Ho.
  - by eexists.
Defined.

(** ** [legalize]: which line an instruction gets *)

Lemma legalize_Ok_fold h c h1 c1 :
  Bytecode.legalize h c = (h1, c1, Ok tt) →
  ∃ v, legalize_fold h 0 (items c) (legalize_init c) = (h1, v).
Proof.
  rewrite legalize_unfold.
  destruct (legalize_for _ _ _ _ _ _) as [h' [v|e]] eqn:Ef; [|done].
  intros [= <- _]. exists v. by eapply legalize_for_fold.
Qed.

Lemma lineno_update_Instr h h' o i :
  lineno_update h h' → deref h o = OInstr i →
  ∃ v, deref h' o = OInstr (set_instr_lineno i v).
Proof.
  intros [_ H] Ho. destruct (H o) as [E|(j & v & Ej & E & _)].
  - exists (instr_lineno i). rewrite E, Ho. by destruct i.
  - exists v. congruence.
Qed.

Lemma lineno_update_other h h' o :
  lineno_update h h' → (∀ i, deref h o ≠ OInstr i) → deref h' o = deref h o.
Proof.
  intros [_ H] Ho. destruct (H o) as [E|(j & v & Ej & _)]; [done|].
  by destruct (Ho j).
Qed.

Lemma Forall_no_marker_update h h' xs :
  lineno_update h h' →
  Forall (λ o, is_SetLineno (deref h o) = false) xs →
  Forall (λ o, is_SetLineno (deref h' o) = false) xs.
Proof.
  intros Hu HF. eapply Forall_impl; [exact HF|]. intros o Ho. simpl.
  by rewrite (is_SetLineno_update h h').
Qed.

(** Without a [SetLineno] among the entries, the pending line is kept. *)
Lemma legalize_fold_no_marker xs : ∀ h pos v h' v',
  current_lineno v ≠ LUnset →
  Forall (λ o, is_SetLineno (deref h o) = false) xs →
  legalize_fold h pos xs v = (h', v') →
  set_lineno v' = set_lineno v.
Proof.
  induction xs as [|o xs IH]; intros h pos v h' v' Hc Hm; simpl.
  { by intros [= _ <-]. }
  apply Forall_cons in Hm as [Ho Hm].
  destruct (legalize_body h pos o v) as [h1 v1] eqn:Eb.
  pose proof Eb as (Hu1 & Hc1 & _)%legalize_body_spec; [|done].
  intros Ef. apply IH in Ef; [|done|by eapply Forall_no_marker_update].
  rewrite Ef. revert Eb. unfold legalize_body.
  destruct (deref h o) as [i| | | | | | |]; try done; try by intros [= _ <-].
  destruct (set_lineno v) eqn:Es; [by intros [= _ <-]|].
  destruct (instr_lineno i); by intros [= _ <-].
Qed.

(** Before any [SetLineno], an instruction that has a line keeps it. *)
Lemma legalize_fold_explicit xs : ∀ h pos v h' v' o i,
  current_lineno v ≠ LUnset → set_lineno v = None →
  Forall (λ o, is_SetLineno (deref h o) = false) xs →
  legalize_fold h pos xs v = (h', v') →
  deref h o = OInstr i → instr_lineno i ≠ LUnset →
  deref h' o = OInstr i.
Proof.
  induction xs as [|x xs IH]; intros h pos v h' v' o i Hc Hs Hm; simpl.
  { by intros [= <- _]. }
  apply Forall_cons in Hm as [Hx Hm].
  destruct (legalize_body h pos x v) as [h1 v1] eqn:Eb.
  pose proof Eb as (Hu1 & Hc1 & Hfr1 & _)%legalize_body_spec; [|done].
  intros Ef Ho Hi.
  assert (set_lineno v1 = None ∧ deref h1 o = OInstr i) as [Hs1 Ho1].
  { revert Eb. unfold legalize_body. rewrite Hs.
    destruct (deref h x) as [j| | | | | | |] eqn:Ex; try done;
      try by intros [= <- <-].
    destruct (instr_lineno j) eqn:Ej; try by intros [= <- <-].
    intros [= <- <-]. split; [done|].
    rewrite deref_insert_ne; [done|]. intros ->. congruence. }
  eapply IH; [exact Hc1|exact Hs1| |exact Ef|exact Ho1|exact Hi].
  by eapply Forall_no_marker_update.
Qed.

Lemma explicit_line_ext h h' o :
  deref h' o = deref h o → explicit_line h' o = explicit_line h o.
Proof. unfold explicit_line. by intros ->. Qed.

Lemma baseline_cons h first o pre :
  baseline h first (o :: pre) =
  baseline h (default first (explicit_line h o)) pre.
Proof.
  unfold baseline. simpl. destruct (explicit_line h o) as [l|]; simpl; [|done].
  rewrite last_cons. by destruct (list.last _).
Qed.

Lemma baseline_ext h h' first pre :
  Forall (λ o, deref h' o = deref h o) pre →
  baseline h' first pre = baseline h first pre.
Proof.
  intros Hp. revert first. induction Hp as [|o pre Ho _ IH]; intros first;
    [done|].
  by rewrite !baseline_cons, (explicit_line_ext h h'), IH.
Qed.

(** Before any [SetLineno] and without an object held twice, the running
    line is the line of the last instruction that had one. *)
Lemma legalize_fold_baseline xs : ∀ h pos v h' v',
  current_lineno v ≠ LUnset → set_lineno v = None →
  Forall (λ o, is_SetLineno (deref h o) = false) xs → NoDup xs →
  legalize_fold h pos xs v = (h', v') →
  current_lineno v' = baseline h (current_lineno v) xs.
Proof.
  induction xs as [|x xs IH]; intros h pos v h' v' Hc Hs Hm Hnd; simpl.
  { by intros [= _ <-]. }
  apply Forall_cons in Hm as [Hx Hm]. apply NoDup_cons in Hnd as [Hnx Hnd].
  destruct (legalize_body h pos x v) as [h1 v1] eqn:Eb.
  pose proof Eb as (Hu1 & Hc1 & Hfr1 & _)%legalize_body_spec; [|done].
  intros Ef. rewrite baseline_cons.
  assert (set_lineno v1 = None ∧
          current_lineno v1 = default (current_lineno v) (explicit_line h x))
    as [Hs1 Hc1'].
  { revert Eb. unfold legalize_body, explicit_line. rewrite Hs.
    destruct (deref h x) as [j| | | | | | |] eqn:Ex; try done;
      try by intros [= <- <-].
    destruct (instr_lineno j) eqn:Ej; by intros [= <- <-]. }
  rewrite (IH h1 (S pos) v1 h' v') ; [|done|done| |done|done].
  - rewrite Hc1'. apply baseline_ext, list.Forall_forall.
    intros o Ho. apply Hfr1. by intros ->.
  - by eapply Forall_no_marker_update.
Qed.

(** X4. A [SetLineno] wins: after a successful [legalize], an instruction
    that follows [SetLineno(n)] with no other [SetLineno] in between has
    line [n], whatever line it had, provided the same instruction object
    does not occur again later in the container. *)
Theorem legalize_marker_wins h c h1 c1 pre m n mid i ins post :
  items c = pre ++ m :: mid ++ i :: post →
  deref h m = OSetLineno n →
  Forall (λ o, is_SetLineno (deref h o) = false) mid →
  deref h i = OInstr ins → i ∉ post →
  Bytecode.legalize h c = (h1, c1, Ok tt) →
  deref h1 i = OInstr (set_instr_lineno ins (LInt n)).
Proof.
  intros Hx Hm Hmid Hi Hpost [v Hf]%legalize_Ok_fold.
  rewrite Hx, legalize_fold_app in Hf.
  destruct (legalize_fold h 0 pre (legalize_init c)) as [ha va] eqn:Ea.
  apply legalize_fold_spec in Ea as (Hua & Hca & _); [|done].
  simpl in Hf. unfold legalize_body at 1 in Hf.
  rewrite (lineno_update_other h ha m), Hm in Hf
    by (done || (intros j; congruence)).
  rewrite legalize_fold_app in Hf.
  destruct (legalize_fold ha _ mid _) as [hb vb] eqn:Eb.
  pose proof Eb as (Hub & Hcb & _)%legalize_fold_spec; [|done].
  apply legalize_fold_no_marker in Eb;
    [|done|by eapply Forall_no_marker_update].
  simpl in Eb, Hf.
  destruct (lineno_update_Instr h hb i ins) as [w Hw];
    [by eapply lineno_update_trans|done|].
  unfold legalize_body at 1 in Hf. rewrite Hw, Eb in Hf.
  apply legalize_fold_spec in Hf as (_ & _ & Hfr); [|done].
  rewrite Hfr by done. apply deref_insert_eq. by eapply deref_Instr_lt.
Qed.

Lemma legalize_marker_wins_witness :
  let h := [OInstr (ex_instr "NOP" ArgUnset); OSetLineno 5; OLabel;
            OInstr (set_instr_lineno (ex_instr "RETURN_VALUE" ArgUnset)
                      (LInt 2))] ++ default_names in
  let h1 := [OInstr (set_instr_lineno (ex_instr "NOP" ArgUnset) (LInt 1));
             OSetLineno 5; OLabel;
             OInstr (set_instr_lineno (ex_instr "RETURN_VALUE" ArgUnset)
                       (LInt 5))] ++ default_names in
  deref h1 3 =
  OInstr (set_instr_lineno
            (set_instr_lineno (ex_instr "RETURN_VALUE" ArgUnset) (LInt 2))
            (LInt 5)).
Proof.
  intros h h1.
  apply (legalize_marker_wins h (default_code 4 [0; 1; 2; 3]) h1
           (default_code 4 [0; 2; 3]) [0] 1 5%Z [2] 3 _ []).
  - reflexivity.
  - reflexivity.
  - repeat constructor.
  - reflexivity.
  - apply not_elem_of_nil.
  - reflexivity.
Defined.

(** X5. Before the first [SetLineno], an instruction that has a line keeps
    it through a successful [legalize], provided the same instruction object
    does not occur again later in the container. *)
Theorem legalize_explicit_line_kept h c h1 c1 pre i ins post :
  items c = pre ++ i :: post →
  Forall (λ o, is_SetLineno (deref h o) = false) pre →
  deref h i = OInstr ins → instr_lineno ins ≠ LUnset → i ∉ post →
  Bytecode.legalize h c = (h1, c1, Ok tt) →
  deref h1 i = OInstr ins.
Proof.
  intros Hx Hpre Hi Hl Hpost [v Hf]%legalize_Ok_fold.
  rewrite Hx, legalize_fold_app in Hf.
  destruct (legalize_fold h 0 pre (legalize_init c)) as [ha va] eqn:Ea.
  pose proof Ea as (Hua & Hca & _)%legalize_fold_spec; [|done].
  pose proof Ea as Hsa%legalize_fold_no_marker; [|done|done].
  eapply legalize_fold_explicit in Ea; [|done|done|done|exact Hi|done].
  simpl in Hf, Hsa. unfold legalize_body at 1 in Hf. rewrite Ea, Hsa in Hf.
  destruct (instr_lineno ins) eqn:El; [done| |];
    apply legalize_fold_spec in Hf as (_ & _ & Hfr); try done;
    by rewrite Hfr.
Qed.

Lemma legalize_explicit_line_kept_witness :
  let h := [OInstr (ex_instr "NOP" ArgUnset);
            OInstr (set_instr_lineno (ex_instr "RETURN_VALUE" ArgUnset)
                      (LInt 2));
            OSetLineno 5; OInstr (ex_instr "NOP" ArgUnset)]
           ++ default_names in
  let h1 := [OInstr (set_instr_lineno (ex_instr "NOP" ArgUnset) (LInt 1));
             OInstr (set_instr_lineno (ex_instr "RETURN_VALUE" ArgUnset)
                       (LInt 2));
             OSetLineno 5;
             OInstr (set_instr_lineno (ex_instr "NOP" ArgUnset) (LInt 5))]
            ++ default_names in
  deref h1 1 =
  OInstr (set_instr_lineno (ex_instr "RETURN_VALUE" ArgUnset) (LInt 2)).
Proof.
  intros h h1.
  apply (legalize_explicit_line_kept h (default_code 4 [0; 1; 2; 3]) h1
           (default_code 4 [0; 1; 3]) [0] 1 _ [2; 3]).
  - reflexivity.
  - repeat constructor.
  - reflexivity.
  - done.
  - vm_compute. intros Hin.
    repeat (apply elem_of_cons in Hin as [?|Hin]; [done|]).
    by apply elem_of_nil in Hin.
  - reflexivity.
Defined.

(** X6. Before the first [SetLineno], an instruction whose line is unset
    gets the line of the last instruction before it that had one, or
    [first_lineno] when there is none, provided no object occurs twice up to
    that instruction and the instruction does not occur again later. *)
Theorem legalize_unset_line_filled h c h1 c1 pre i ins post :
  items c = pre ++ i :: post →
  Forall (λ o, is_SetLineno (deref h o) = false) pre →
  NoDup (pre ++ [i]) →
  deref h i = OInstr ins → instr_lineno ins = LUnset → i ∉ post →
  Bytecode.legalize h c = (h1, c1, Ok tt) →
  deref h1 i =
  OInstr (set_instr_lineno ins (baseline h (LInt (first_lineno c)) pre)).
Proof.
  intros Hx Hpre Hnd Hi Hl Hpost [v Hf]%legalize_Ok_fold.
  apply NoDup_app in Hnd as (Hndp & Hnin & _).
  rewrite Hx, legalize_fold_app in Hf.
  destruct (legalize_fold h 0 pre (legalize_init c)) as [ha va] eqn:Ea.
  pose proof Ea as (Hua & Hca & Hfra)%legalize_fold_spec; [|done].
  pose proof Ea as Hsa%legalize_fold_no_marker; [|done|done].
  apply legalize_fold_baseline in Ea; [|done|done|done|done].
  simpl in Hf, Hsa, Ea. unfold legalize_body at 1 in Hf.
  rewrite Hfra, Hi, Hsa, Hl, Ea in Hf.
  2:{ intros Hin. eapply Hnin; [exact Hin|]. apply list_elem_of_here. }
  apply legalize_fold_spec in Hf as (_ & _ & Hfr); [|done].
  rewrite Hfr by done. apply deref_insert_eq.
  destruct Hua as [-> _]. by eapply deref_Instr_lt.
Qed.

Lemma legalize_unset_line_filled_witness :
  let h := [OInstr (set_instr_lineno (ex_instr "LOAD_CONST" (ArgInt 7))
                      (LInt 4));
            OLabel; OInstr (ex_instr "RETURN_VALUE" ArgUnset)]
           ++ default_names in
  let h1 := [OInstr (set_instr_lineno (ex_instr "LOAD_CONST" (ArgInt 7))
                       (LInt 4));
             OLabel;
             OInstr (set_instr_lineno (ex_instr "RETURN_VALUE" ArgUnset)
                       (LInt 4))] ++ default_names in
  deref h1 2 =
  OInstr (set_instr_lineno (ex_instr "RETURN_VALUE" ArgUnset)
            (baseline h (LInt (first_lineno (default_code 3 [0; 1; 2])))
               [0; 1])).
Proof.
  intros h h1.
  apply (legalize_unset_line_filled h (default_code 3 [0; 1; 2]) h1
           (default_code 3 [0; 1; 2]) [0; 1] 2 _ []).
  - reflexivity.
  - repeat constructor.
  - apply (bool_decide_unpack (NoDup [0; 1; 2])). by vm_compute.
  - reflexivity.
  - reflexivity.
  - apply not_elem_of_nil.
  - reflexivity.
Defined.

(** ** Traversal: when it is clean and where it stops *)

Lemma iter_Raise h s b e :
  Bytecode.__iter__ h s b = Raise e →
  (is_entry (deref h b) = false ∧ e = ValueError (type_name (deref h b))) ∨
  (is_TryBegin (deref h b) = true ∧ s = true ∧ e = RuntimeError_nested).
Proof.
  unfold Bytecode.__iter__, _BaseBytecodeList.__iter__, Bytecode._check_instr.
  destruct (deref h b); simpl; try done; try (intros [= <-]; by left).
  destruct s; [|done]. intros [= <-]. by right.
Qed.

Lemma iter_Ok_entry h s b s' :
  Bytecode.__iter__ h s b = Ok s' → is_entry (deref h b) = true.
Proof.
  unfold Bytecode.__iter__, _BaseBytecodeList.__iter__, Bytecode._check_instr.
  by destruct (deref h b).
Qed.

Lemma traverse_Ok_entries h xs : ∀ s s',
  traverse h s xs = Ok s' → Forall (λ o, is_entry (deref h o) = true) xs.
Proof.
  induction xs as [|o xs IH]; intros s s'; simpl; [by constructor|].
  destruct (Bytecode.__iter__ h s o) as [s1|] eqn:Ei; [|done]. simpl.
  intros Ht. constructor; [by eapply iter_Ok_entry|by eapply IH].
Qed.

Lemma drain_clean h xs :
  drain Bytecode.iter h false xs = (xs, None) ↔ is_Ok (traverse h false xs).
Proof.
  rewrite drain_traverse. destruct (traverse h false xs); split; try done.
  - by eexists.
  - by intros [? [=]].
Qed.

(** X7. A traversal of a [Bytecode] yields all its entries without an
    exception exactly when every entry is one of the five variants and no
    [TryBegin] comes while a region is open. *)
Theorem traversal_clean_iff h xs :
  drain Bytecode.iter h false xs = (xs, None) ↔
  Forall (λ o, is_entry (deref h o) = true) xs ∧ never_nested h xs.
Proof.
  rewrite drain_clean. split.
  - intros [s Hs]. split; [by eapply traverse_Ok_entries|].
    intros pre b post -> Hb.
    rewrite traverse_app in Hs.
    destruct (traverse h false pre) as [s1|] eqn:Ep; [|done].
    simpl in Hs. apply traverse_region_open in Ep. fold (region_open h pre) in Ep.
    destruct (region_open h pre) eqn:Eo; [|done]. subst s1.
    assert (Bytecode.__iter__ h true b = Raise RuntimeError_nested) as Hr
      by by apply iter_nested.
    by rewrite Hr in Hs.
  - intros [Hall Hnn].
    destruct (traverse h false xs) as [s|e] eqn:Et; [by eexists|].
    apply traverse_Raise in Et as (pre & b & post & s1 & -> & Hp & Hb).
    apply iter_Raise in Hb as [[Hb _]|(Hb & -> & _)].
    + apply Forall_app in Hall as [_ Hall].
      apply Forall_cons in Hall as [Hall _]. congruence.
    + apply traverse_region_open in Hp. fold (region_open h pre) in Hp.
      rewrite (Hnn pre b post) in Hp; done.
Qed.

Lemma drain_Raise_prefix h xs : ∀ s ys e,
  drain Bytecode.iter h s xs = (ys, Some e) →
  ∃ b post s1, xs = ys ++ b :: post ∧ traverse h s ys = Ok s1 ∧
               Bytecode.__iter__ h s1 b = Raise e.
Proof.
  induction xs as [|o xs IH]; intros s ys e; simpl; [done|].
  destruct (Bytecode.__iter__ h s o) as [s'|e'] eqn:Ei; simpl.
  - destruct (drain Bytecode.iter h s' xs) as [zs r] eqn:Ed.
    intros [= <- ->].
    apply IH in Ed as (b & post & s1 & -> & Ht & Hb).
    exists b, post, s1. simpl. rewrite Ei. simpl. done.
  - intros [= <- <-]. by exists o, xs, s.
Qed.

(** X8. When a traversal of a [Bytecode] raises, the entries yielded so far
    are exactly those before the first offending element, which are
    themselves traversed cleanly; the exception is the [ValueError] that
    names the type of that element when it is not one of the five variants,
    and the nesting error when it is a [TryBegin] met while a region is
    open. *)
Theorem traversal_first_error h xs ys e :
  drain Bytecode.iter h false xs = (ys, Some e) →
  ∃ b post,
    xs = ys ++ b :: post ∧
    drain Bytecode.iter h false ys = (ys, None) ∧
    ((is_entry (deref h b) = false ∧ e = ValueError (type_name (deref h b))) ∨
     (is_TryBegin (deref h b) = true ∧ region_open h ys = true ∧
      e = RuntimeError_nested)).
Proof.
  intros (b & post & s1 & -> & Ht & Hb)%drain_Raise_prefix.
  exists b, post. split_and!; [done|apply drain_clean; by eexists|].
  apply iter_Raise in Hb as [Hb|(Hb & -> & ->)]; [by left|right].
  split_and!; [done| |done].
  apply traverse_region_open in Ht. by unfold region_open.
Qed.

Lemma traversal_first_error_witness :
  let h := [OLabel; OTryBegin 0; OOther "int"; OLabel] in
  ∃ b post,
    [0; 1; 2; 3] = [0; 1] ++ b :: post ∧
    drain Bytecode.iter h false [0; 1] = ([0; 1], None) ∧
    ((is_entry (deref h b) = false ∧
      ValueError "int" = ValueError (type_name (deref h b))) ∨
     (is_TryBegin (deref h b) = true ∧ region_open h [0; 1] = true ∧
      ValueError "int" = RuntimeError_nested)).
Proof.
  intros h. apply (traversal_first_error h [0; 1; 2; 3] [0; 1]).
  reflexivity.
Defined.

(** ** [_flat]: what is emitted and how jumps are resolved *)

Lemma flat_fold_app h xs ys : ∀ index v,
  flat_fold h index (xs ++ ys) v =
  flat_fold h (index + length xs) ys (flat_fold h index xs v).
Proof.
  induction xs as [|o xs IH]; intros index v; simpl.
  { by rewrite Nat.add_0_r. }
  by rewrite IH, Nat.add_succ_r.
Qed.

Lemma flat_body_instructions h index o v :
  instructions (flat_body h index o v) = instructions v ++ [emitted h index o].
Proof.
  unfold flat_body, emitted. destruct (deref h o) as [i| | | | | | |]; try done.
  by destruct (instr_arg i).
Qed.

Lemma flat_body_jumps h index o v :
  jumps (flat_body h index o v) =
  jumps v ++ match target_of h o with
             | Some l => [(l, length (instructions v))]
             | None => []
             end.
Proof.
  unfold flat_body, target_of.
  destruct (deref h o) as [i| | | | | | |]; simpl; rewrite ?app_nil_r; try done.
  destruct (instr_arg i); simpl; by rewrite ?app_nil_r.
Qed.

Lemma flat_body_offset h index o v :
  offset (flat_body h index o v) =
  offset v + length (non_labels h [o]).
Proof.
  unfold flat_body, non_labels.
  destruct (deref h o) as [i| | | | | | |] eqn:E; simpl;
    try (rewrite filter_cons_True by (rewrite E; done); done).
  - destruct (instr_arg i); simpl;
      rewrite filter_cons_True by (rewrite E; done); done.
  - rewrite filter_cons_False by (rewrite E; auto). simpl. lia.
Qed.

Lemma flat_body_labels h index o v l :
  labels (flat_body h index o v) !! l =
  if decide (deref h o = OLabel ∧ o = l) then Some (offset v)
  else labels v !! l.
Proof.
  unfold flat_body. case_decide as Hd.
  - destruct Hd as [-> ->]. simpl. apply lookup_insert_eq.
  - destruct (deref h o) as [i| | | | | | |] eqn:E; simpl; try done.
    + by destruct (instr_arg i).
    + apply lookup_insert_ne. intros ->. by apply Hd.
Qed.

Lemma non_labels_app h xs ys :
  non_labels h (xs ++ ys) = non_labels h xs ++ non_labels h ys.
Proof. apply filter_app. Qed.

Lemma flat_fold_instructions h xs : ∀ index v,
  instructions (flat_fold h index xs v) =
  instructions v ++ imap (λ k, emitted h (index + k)) xs.
Proof.
  induction xs as [|o xs IH]; intros index v; simpl.
  { by rewrite app_nil_r. }
  rewrite IH, flat_body_instructions, <- app_assoc. simpl.
  rewrite Nat.add_0_r. do 2 f_equal. apply imap_ext. intros k x _. simpl.
  f_equal. lia.
Qed.

Lemma flat_fold_jumps_of h xs : ∀ index v,
  length (instructions v) = index →
  jumps (flat_fold h index xs v) = jumps v ++ jumps_of h index xs.
Proof.
  induction xs as [|o xs IH]; intros index v Hlen; simpl.
  { by rewrite app_nil_r. }
  rewrite IH.
  2:{ rewrite flat_body_instructions, length_app. simpl. lia. }
  rewrite flat_body_jumps, <- app_assoc, Hlen.
  by destruct (target_of h o).
Qed.

Lemma flat_fold_offset h xs : ∀ index v,
  offset (flat_fold h index xs v) = offset v + length (non_labels h xs).
Proof.
  induction xs as [|o xs IH]; intros index v; simpl; [simpl; lia|].
  rewrite IH, flat_body_offset.
  change (o :: xs) with ([o] ++ xs). rewrite non_labels_app, length_app. lia.
Qed.

Lemma flat_fold_labels_frame h xs l : ∀ index v,
  l ∉ xs →
  labels (flat_fold h index xs v) !! l = labels v !! l.
Proof.
  induction xs as [|o xs IH]; intros index v Hl; simpl; [done|].
  apply not_elem_of_cons in Hl as [Hne Hl].
  rewrite IH, flat_body_labels by done.
  by rewrite decide_False by (intros [_ ?]; congruence).
Qed.

(** The offset recorded for a label is the number of entries that are not
    labels before its last occurrence. *)
Lemma flat_fold_label_offset h pre l post :
  deref h l = OLabel → l ∉ post →
  labels (flat_fold h 0 (pre ++ l :: post) flat_init) !! l
  = Some (length (non_labels h pre)).
Proof.
  intros Hl Hpost. rewrite flat_fold_app. simpl.
  rewrite flat_fold_labels_frame, flat_body_labels by done.
  rewrite decide_True by done. by rewrite flat_fold_offset.
Qed.

Lemma jumps_of_elem h xs : ∀ k t p,
  (t, p) ∈ jumps_of h k xs ↔
  ∃ j o, p = k + j ∧ xs !! j = Some o ∧ target_of h o = Some t.
Proof.
  induction xs as [|x xs IH]; intros k t p; simpl.
  { rewrite elem_of_nil. split; [done|]. by intros (j & o & _ & [=] & _). }
  assert ((t, p) ∈ jumps_of h (S k) xs ↔
          ∃ j o, p = k + S j ∧ xs !! j = Some o ∧ target_of h o = Some t)
    as IH'.
  { rewrite IH. split; intros (j & o & -> & H); exists j, o;
      (split; [lia|done]). }
  destruct (target_of h x) as [l|] eqn:Ex.
  - rewrite elem_of_cons, IH'. split.
    + intros [[= -> ->]|(j & o & -> & Ho & Ht)].
      * exists 0, x. by rewrite Nat.add_0_r.
      * by exists (S j), o.
    + intros ([|j] & o & -> & Ho & Ht); simpl in Ho.
      * left. injection Ho as <-. rewrite Nat.add_0_r. congruence.
      * right. by exists j, o.
  - rewrite IH'. split.
    + intros (j & o & -> & Ho & Ht). by exists (S j), o.
    + intros ([|j] & o & -> & Ho & Ht); simpl in Ho.
      * injection Ho as <-. congruence.
      * by exists j, o.
Qed.

Lemma jumps_of_NoDup h xs : ∀ k, NoDup (jumps_of h k xs).*2.
Proof.
  induction xs as [|x xs IH]; intros k; simpl; [constructor|].
  destruct (target_of h x); [|apply IH]. simpl. constructor; [|apply IH].
  intros Hin. apply list_elem_of_fmap in Hin as ([t p] & Hp & Hin).
  simpl in Hp. subst p. apply jumps_of_elem in Hin as (j & o & Hk & _). lia.
Qed.

Lemma flat_resolve_length js lbls : ∀ l f,
  flat_resolve js lbls l = Ok f → length f = length l.
Proof.
  induction js as [|[t p] js IH]; intros l f; simpl; [by intros [= <-]|].
  destruct (lbls !! t); [|done]. intros Hf%IH. by rewrite length_alter in Hf.
Qed.

Lemma flat_resolve_other js lbls : ∀ l f p,
  flat_resolve js lbls l = Ok f → p ∉ js.*2 → f !! p = l !! p.
Proof.
  induction js as [|[t p0] js IH]; intros l f p; simpl; [by intros [= <-]|].
  destruct (lbls !! t); [|done].
  intros Hf [Hne Hp]%not_elem_of_cons.
  rewrite (IH _ _ _ Hf Hp). by apply list_lookup_alter_ne.
Qed.

Lemma flat_resolve_jump js lbls : ∀ l f t p,
  flat_resolve js lbls l = Ok f → NoDup js.*2 → (t, p) ∈ js →
  ∃ n, lbls !! t = Some n ∧ f !! p = set_arg n <$> l !! p.
Proof.
  induction js as [|[t0 p0] js IH]; intros l f t p; simpl.
  { intros _ _ Hin. by apply elem_of_nil in Hin. }
  destruct (lbls !! t0) as [n0|] eqn:E0; [|done].
  intros Hf [Hnin Hnd]%NoDup_cons [[= -> ->]|Hin]%elem_of_cons.
  - exists n0. split; [done|].
    rewrite (flat_resolve_other _ _ _ _ _ Hf Hnin).
    apply list_lookup_alter_eq.
  - destruct (IH _ _ _ _ Hf Hnd Hin) as (n & Hn & ->).
    exists n. split; [done|]. f_equal. apply list_lookup_alter_ne.
    intros ->. apply Hnin. apply list_elem_of_fmap. by exists (t, p).
Qed.

Lemma flat_Ok_resolve h xs f :
  _flat Bytecode.iter h xs = Ok f →
  flat_resolve (jumps_of h 0 xs) (labels (flat_fold h 0 xs flat_init))
    (imap (emitted h) xs) = Ok f.
Proof.
  rewrite flat_Bytecode_unfold. destruct (traverse h false xs); [|done].
  simpl. rewrite flat_list_unfold. simpl.
  rewrite flat_fold_jumps_of, flat_fold_instructions by done. simpl.
  intros <-. f_equal.
Qed.

Lemma flat_shape_spec h xs f :
  _flat Bytecode.iter h xs = Ok f →
  length f = length xs ∧
  ∀ k o, xs !! k = Some o →
    (deref h o = OLabel → f !! k = Some (FLabel k)) ∧
    (deref h o ≠ OLabel → target_of h o = None → f !! k = Some (FObj o)).
Proof.
  intros Hf%flat_Ok_resolve. split.
  { apply flat_resolve_length in Hf. by rewrite length_imap in Hf. }
  intros k o Hk.
  assert (target_of h o = None → f !! k = Some (emitted h k o)) as Hem.
  { intros Ht. rewrite (flat_resolve_other _ _ _ _ _ Hf).
    - by rewrite list_lookup_imap, Hk.
    - intros ([t p] & Hp & Hin)%list_elem_of_fmap. simpl in Hp. subst p.
      apply jumps_of_elem in Hin as (j & o' & -> & Ho' & Ht').
      simpl in Hk. congruence. }
  split.
  - intros Ho. rewrite Hem; [|unfold target_of; by rewrite Ho].
    unfold emitted. by rewrite Ho.
  - intros Ho Ht. rewrite Hem by done. revert Ho Ht.
    unfold emitted, target_of.
    destruct (deref h o) as [i| | | | | | |]; try done.
    by destruct (instr_arg i).
Qed.

(** X9. A successful [_flat] emits one element per entry, in order: for a
    [Label] at position [k] the placeholder tagged [k], and for every entry
    that is neither a label nor an instruction whose argument is a label,
    the entry object itself. *)
Theorem flat_shape h xs f :
  _flat Bytecode.iter h xs = Ok f →
  length f = length xs ∧
  ∀ k o, xs !! k = Some o →
    (deref h o = OLabel → f !! k = Some (FLabel k)) ∧
    (deref h o ≠ OLabel → target_of h o = None → f !! k = Some (FObj o)).
Proof.
  apply flat_shape_spec.
Qed.

Lemma flat_shape_witness :
  let h := [OLabel; OInstr (ex_instr "JUMP_FORWARD" (ArgLabel 0));
            OInstr (ex_instr "NOP" ArgUnset)] in
  let f := [FLabel 0;
            FConcrete {| cinstr_name := "JUMP_FORWARD"; cinstr_arg := 0;
                         cinstr_location := None |};
            FObj 2] in
  length f = length [0; 1; 2] ∧
  ∀ k o, [0; 1; 2] !! k = Some o →
    (deref h o = OLabel → f !! k = Some (FLabel k)) ∧
    (deref h o ≠ OLabel → target_of h o = None → f !! k = Some (FObj o)).
Proof. intros h f. apply (flat_shape h [0; 1; 2] f). reflexivity. Defined.

(** X10. In the output of a successful [_flat], an instruction whose
    argument is a label becomes a [ConcreteInstr] with the same name and
    location whose argument is the number of entries that are not labels
    before the last occurrence of that label in the container. *)
Theorem flat_jump_offset h xs f k o i l pre post :
  _flat Bytecode.iter h xs = Ok f →
  xs !! k = Some o → deref h o = OInstr i → instr_arg i = ArgLabel l →
  xs = pre ++ l :: post → deref h l = OLabel → l ∉ post →
  f !! k = Some (FConcrete
                   {| cinstr_name := instr_name i;
                      cinstr_arg := Z.of_nat (length (non_labels h pre));
                      cinstr_location := instr_location i |}).
Proof.
  intros Hf%flat_Ok_resolve Hk Ho Ha Hx Hl Hpost.
  destruct (flat_resolve_jump _ _ _ _ l k Hf) as (n & Hn & ->).
  - apply jumps_of_NoDup.
  - apply jumps_of_elem. exists k, o. split_and!; [done|done|].
    unfold target_of. by rewrite Ho, Ha.
  - rewrite list_lookup_imap, Hk. simpl. unfold emitted. rewrite Ho, Ha.
    simpl. rewrite Hx, flat_fold_label_offset in Hn by done.
    by injection Hn as <-.
Qed.

Lemma flat_jump_offset_witness :
  let h := [OInstr (ex_instr "NOP" ArgUnset); OLabel; OSetLineno 3;
            OInstr (ex_instr "JUMP_FORWARD" (ArgLabel 4)); OLabel] in
  let f := [FObj 0; FLabel 1; FObj 2;
            FConcrete {| cinstr_name := "JUMP_FORWARD"; cinstr_arg := 3;
                         cinstr_location := None |};
            FLabel 4] in
  f !! 3 =
  Some (FConcrete
          {| cinstr_name := instr_name (ex_instr "JUMP_FORWARD" (ArgLabel 4));
             cinstr_arg := Z.of_nat (length (non_labels h [0; 1; 2; 3]));
             cinstr_location :=
               instr_location (ex_instr "JUMP_FORWARD" (ArgLabel 4)) |}).
Proof.
  intros h f.
  apply (flat_jump_offset h [0; 1; 2; 3; 4] f 3 3 _ 4 [0; 1; 2; 3] []).
  - reflexivity.
  - reflexivity.
  - reflexivity.
  - reflexivity.
  - reflexivity.
  - reflexivity.
  - apply not_elem_of_nil.
Defined.

(** ** Equality: further properties *)

(** X11. Comparing a [Bytecode] with itself returns [True] when it
    flattens and raises the exception of its flattening otherwise; it never
    returns [False]. *)
Theorem Bytecode_eq_self cs h c :
  Bytecode.__eq__ cs h c (VBytecode c) =
  match _flat Bytecode.iter h (items c) with
  | Ok _ => Ok true
  | Raise e => Raise e
  end.
Proof.
  rewrite eq_Bytecode_Bytecode.
  destruct (_flat Bytecode.iter h (items c)) as [f|e]; simpl; [|done].
  by rewrite list_eq_refl.
Qed.

(** X12. [a == b] on two [Bytecode] objects raises exactly when one of the
    two flattenings raises; the left operand is flattened first, so its
    exception is the one raised when both fail. *)
Theorem Bytecode_eq_raises cs h a b e :
  Bytecode.__eq__ cs h a (VBytecode b) = Raise e ↔
  _flat Bytecode.iter h (items a) = Raise e ∨
  (is_Ok (_flat Bytecode.iter h (items a)) ∧
   _flat Bytecode.iter h (items b) = Raise e).
Proof.
  rewrite eq_Bytecode_Bytecode.
  destruct (_flat Bytecode.iter h (items a)) as [f1|e1]; simpl.
  - destruct (_flat Bytecode.iter h (items b)) as [f2|e2]; simpl.
    + split; [done|]. intros [H|[_ H]]; discriminate H.
    + split; [intros [= ->]; right; split; [by eexists|done]|].
      intros [H|[_ H]]; [discriminate H|by injection H as ->].
  - split; [intros [= ->]; by left|].
    intros [H|[[f Hf] _]]; [by injection H as ->|discriminate Hf].
Qed.

(** X13. [BaseBytecode.__eq__] returns [True] exactly when the operand is a
    container of the same class with the same attributes and the two stack
    sizes are computed and equal; when an attribute differs it returns
    [False] without running the stack-size analysis, and so it does for an
    operand of another class. *)
Theorem BaseBytecode_eq_iff cs h a :
  (∀ b, BaseBytecode.__eq__ cs h a (VBytecode b) = Ok true ↔
        same_attributes h a b ∧ ∃ n, cs h a = Ok n ∧ cs h b = Ok n) ∧
  (∀ b, ¬ same_attributes h a b →
        BaseBytecode.__eq__ cs h a (VBytecode b) = Ok false) ∧
  (∀ xs, BaseBytecode.__eq__ cs h a (VList xs) = Ok false) ∧
  (∀ xs, BaseBytecode.__eq__ cs h a (VInstrList xs) = Ok false) ∧
  (∀ t, BaseBytecode.__eq__ cs h a (VOther t) = Ok false).
Proof.
  split_and!; try done.
  - intros b. split.
    + intros H%BaseBytecode_eq_true. unfold same_attributes. tauto.
    + intros [(H1 & H2 & H3 & H4 & H5 & H6 & H7 & H8 & H9 & H10)
                (n & Ha & Hb)].
      unfold BaseBytecode.__eq__.
      repeat (case_decide; [done|]). rewrite Ha, Hb. simpl.
      by rewrite decide_False by auto.
  - intros b Hne. unfold BaseBytecode.__eq__.
    repeat (case_decide; [done|]). destruct Hne.
    unfold same_attributes. by split_and!.
Qed.

(** ** [legalize] and [_flat] *)

Lemma target_of_update h h' o :
  lineno_update h h' → target_of h' o = target_of h o.
Proof.
  intros [_ H]. unfold target_of.
  destruct (H o) as [->|(i & v & -> & -> & _)]; done.
Qed.

Lemma is_label_update h h' o :
  lineno_update h h' → deref h' o = OLabel ↔ deref h o = OLabel.
Proof.
  intros [_ H]. destruct (H o) as [->|(i & v & -> & -> & _)]; done.
Qed.

(** X14. A successful [legalize] does not change whether the container
    flattens: afterwards [_flat] succeeds exactly when it did before. *)
Theorem legalize_preserves_flattening h c h1 c1 :
  Bytecode.legalize h c = (h1, c1, Ok tt) →
  is_Ok (_flat Bytecode.iter h1 (items c1)) ↔
  is_Ok (_flat Bytecode.iter h (items c)).
Proof.
  intros (-> & Hu & [s Hs] & _)%legalize_Ok. simpl.
  rewrite !flat_Bytecode_Ok.
  assert (is_Ok (traverse h1 false (remove_markers h (items c)))) as Hs1.
  { rewrite (traverse_lineno_update h h1) by done.
    exists s. by apply traverse_remove_markers. }
  assert (∀ l, l ∈ target_labels h1 (remove_markers h (items c))
               ↔ l ∈ target_labels h (items c)) as Ht.
  { intros l. unfold target_labels, remove_markers.
    rewrite !list_elem_of_omap. split.
    - intros (o & [_ Ho]%list_elem_of_filter & Hl).
      exists o. by rewrite <- (target_of_update h h1).
    - intros (o & Ho & Hl). exists o.
      rewrite (target_of_update h h1) by done. split; [|done].
      apply list_elem_of_filter. split; [|done].
      revert Hl. unfold target_of. by destruct (deref h o). }
  assert (∀ l, l ∈ entry_labels h1 (remove_markers h (items c))
               ↔ l ∈ entry_labels h (items c)) as He.
  { intros l. unfold entry_labels, remove_markers.
    rewrite !list_elem_of_filter, (is_label_update h h1) by done.
    split; [tauto|]. intros [Hl Hin]. split_and!; try done.
    by rewrite Hl. }
  split; intros [_ H]; (split; [done||by eexists|]); intros l Hl.
  - apply He, H, Ht, Hl.
  - apply He, H, Ht, Hl.
Qed.

Lemma legalize_preserves_flattening_witness :
  let h := [OSetLineno 5; OInstr (ex_instr "JUMP_FORWARD" (ArgLabel 2));
            OLabel] ++ default_names in
  let h1 := [OSetLineno 5;
             OInstr (set_instr_lineno
                       (ex_instr "JUMP_FORWARD" (ArgLabel 2)) (LInt 5));
             OLabel] ++ default_names in
  is_Ok (_flat Bytecode.iter h1 (items (default_code 3 [1; 2]))) ↔
  is_Ok (_flat Bytecode.iter h (items (default_code 3 [0; 1; 2]))).
Proof.
  intros h h1.
  apply (legalize_preserves_flattening h (default_code 3 [0; 1; 2]) h1
           (default_code 3 [1; 2])).
  reflexivity.
Defined.

(** X22. [_flat] on a [Bytecode] returns exactly when the traversal of the
    container is clean and every label that an instruction refers to is
    among the entries. *)
Theorem flat_succeeds_iff h xs :
  is_Ok (_flat Bytecode.iter h xs) ↔
  drain Bytecode.iter h false xs = (xs, None) ∧
  ∀ o l, o ∈ xs → target_of h o = Some l → l ∈ entry_labels h xs.
Proof.
  rewrite flat_Bytecode_Ok, drain_clean. unfold target_labels.
  split; intros [Ht Hl]; (split; [done|]).
  - intros o l Ho Hol. apply Hl, list_elem_of_omap. by exists o.
  - intros l (o & Ho & Hol)%list_elem_of_omap. by eapply Hl.
Qed.

(** ** Renaming of labels *)

Section renaming.
Context (h : heap) (ρ : oid → oid) (P : oid → Prop).
Hypothesis ρ_inj : ∀ l l', P l → P l' → ρ l = ρ l' → l = l'.

Lemma flat_body_in_step index o o' v1 v2 :
  renamed_entry h ρ o o' → (deref h o = OLabel → P o) →
  is_TryBegin (deref h o) = false → is_TryEnd (deref h o) = false →
  in_step ρ P v1 v2 →
  in_step ρ P (flat_body h index o v1) (flat_body h index o' v2).
Proof.
  intros Hr HP Hnb Hnd (Hi & Ho & Hj & Hl). unfold flat_body.
  destruct Hr as [o Ho1 Ho2|o o' i l Ho1 Ha Ho2|o o' t Ho1 _|o o' e e' Ho1 _
                 |o Hn Ht _ _];
    [| |by rewrite Ho1 in Hnb|by rewrite Ho1 in Hnd|].
  - rewrite Ho1, Ho2. split_and!; simpl; [by rewrite Hi|done|done|].
    intros l Pl. rewrite Ho. destruct (decide (l = o)) as [->|Hne].
    + by rewrite !lookup_insert_eq.
    + rewrite !lookup_insert_ne; [by apply Hl|done|].
      intros Heq. apply Hne. symmetry. apply ρ_inj; auto.
  - rewrite Ho1, Ho2, Ha. simpl.
    split_and!; simpl; [by rewrite Hi|by rewrite Ho| |done].
    by rewrite Hj, fmap_app, Hi.
  - unfold target_of in Ht.
    destruct (deref h o) as [i| | | | | | |]; try done;
      try (split_and!; simpl; [by rewrite Hi|by rewrite Ho|done|done]).
    destruct (instr_arg i); try done;
      split_and!; simpl; [by rewrite Hi|by rewrite Ho|done|done
                         |by rewrite Hi|by rewrite Ho|done|done
                         |by rewrite Hi|by rewrite Ho|done|done].
Qed.

Lemma flat_fold_in_step xs ys :
  Forall2 (renamed_entry h ρ) xs ys →
  (∀ o, o ∈ xs → deref h o = OLabel → P o) →
  no_region_marker h xs →
  ∀ index v1 v2, in_step ρ P v1 v2 →
    in_step ρ P (flat_fold h index xs v1) (flat_fold h index ys v2).
Proof.
  induction 1 as [|o o' xs ys Hr _ IH]; intros HP Hnr index v1 v2 Hs; [done|].
  apply Forall_cons in Hnr as [[Hnb Hne] Hnr].
  simpl. apply IH.
  - intros o1 Ho1. apply HP. by apply list_elem_of_further.
  - done.
  - apply flat_body_in_step; [done| |done|done|done].
    apply HP, list_elem_of_here.
Qed.

Lemma flat_resolve_renamed js lbls1 lbls2 :
  (∀ t, t ∈ js.*1 → P t) →
  (∀ l, P l → lbls2 !! ρ l = lbls1 !! l) →
  ∀ l, is_Ok (flat_resolve js lbls1 l) →
       flat_resolve (prod_map ρ id <$> js) lbls2 l = flat_resolve js lbls1 l.
Proof.
  intros HP Hl. induction js as [|[t pos] js IH]; intros l; simpl; [done|].
  rewrite Hl by (apply HP, list_elem_of_here).
  destruct (lbls1 !! t); [|by intros [? [=]]].
  apply IH. intros t' Ht'. apply HP. by apply list_elem_of_further.
Qed.

Lemma iter_renamed s o o' :
  renamed_entry h ρ o o' →
  Bytecode.__iter__ h s o' = Bytecode.__iter__ h s o.
Proof.
  unfold Bytecode.__iter__, _BaseBytecodeList.__iter__,
    Bytecode._check_instr.
  intros [o1 -> ->|o1 o1' i l -> _ ->|o1 o1' t -> ->|o1 o1' e e' -> ->
         |o1 _ _ _ _]; done.
Qed.

Lemma traverse_renamed xs ys :
  Forall2 (renamed_entry h ρ) xs ys →
  ∀ s, traverse h s ys = traverse h s xs.
Proof.
  induction 1 as [|o o' xs ys Hr _ IH]; intros s; simpl; [done|].
  rewrite (iter_renamed s o o') by done.
  destruct (Bytecode.__iter__ h s o); simpl; [apply IH|done].
Qed.
End renaming.

Lemma flat_renamed h ρ xs ys f :
  label_renaming h ρ xs ys → no_region_marker h xs →
  _flat Bytecode.iter h xs = Ok f → _flat Bytecode.iter h ys = Ok f.
Proof.
  intros [Hr _ Hinj _] Hnr. rewrite !flat_Bytecode_unfold.
  rewrite (traverse_renamed h ρ xs ys) by done.
  destruct (traverse h false xs); simpl; [|done].
  rewrite !flat_list_unfold. simpl. intros Hf.
  set (P := λ l, l ∈ all_labels h xs).
  destruct (flat_fold_in_step h ρ P Hinj xs ys Hr) with 0 flat_init flat_init
    as (-> & _ & -> & Hl).
  - intros o Ho Hd. unfold P, all_labels. apply elem_of_app. left.
    apply list_elem_of_filter. done.
  - done.
  - by split_and!.
  - rewrite <- Hf. apply (flat_resolve_renamed ρ P); [|done|by eexists].
    intros t Ht. rewrite flat_fold_jumps in Ht. simpl in Ht.
    unfold P, all_labels. rewrite !elem_of_app. right. by left.
Qed.

Lemma list_eq_lookup_false h : ∀ f1 f2 k x y,
  f1 !! k = Some x → f2 !! k = Some y → item_eq h x y = false →
  list_eq h f1 f2 = false.
Proof.
  induction f1 as [|a f1 IH]; intros [|b f2] k x y H1 H2 He; try done.
  destruct k as [|k]; simpl in *.
  - injection H1 as ->. injection H2 as ->. by rewrite He.
  - rewrite (IH f2 k x y) by done. apply andb_false_r.
Qed.

(** The renaming of a container that flattens flattens too. *)
Lemma renamed_flat_Ok h ρ xs ys :
  label_renaming h ρ xs ys →
  is_Ok (_flat Bytecode.iter h xs) → is_Ok (_flat Bytecode.iter h ys).
Proof.
  intros [Hr _ _ _]. rewrite !flat_Bytecode_Ok. intros [Ht Hl]. split.
  { by rewrite (traverse_renamed h ρ xs ys). }
  intros l' (o' & Ho' & Hto')%list_elem_of_omap.
  apply list_elem_of_lookup in Ho' as [k Hk].
  destruct (Forall2_lookup_r _ _ _ _ _ Hr Hk) as (o & Hko & Hro).
  unfold target_of in Hto'.
  destruct Hro as [o Ho1 Ho2|o o' i l Ho1 Ha Ho2|o o' t Ho1 Ho2
                  |o o' e e' Ho1 Ho2|o Hn Hto _ _];
    [by rewrite Ho2 in Hto'| |by rewrite Ho2 in Hto'|by rewrite Ho2 in Hto'
    |unfold target_of in Hto; congruence].
  rewrite Ho2 in Hto'. simpl in Hto'. injection Hto' as <-.
  assert (l ∈ entry_labels h xs) as Hin.
  { apply Hl, list_elem_of_omap. exists o.
    split; [by eapply list_elem_of_lookup_2|].
    unfold target_of. by rewrite Ho1, Ha. }
  apply list_elem_of_filter in Hin as [Hdl Hlin].
  apply list_elem_of_lookup in Hlin as [j Hj].
  destruct (Forall2_lookup_l _ _ _ _ _ Hr Hj) as (l2 & Hj2 & Hrl).
  destruct Hrl as [l Hl1 Hl2|l l2 i2 t2 Hl1 _ _|l l2 t2 Hl1 _
                  |l l2 e e' Hl1 _|l Hn _ _ _]; try congruence.
  apply list_elem_of_filter. split; [done|]. by eapply list_elem_of_lookup_2.
Qed.

(** C2, as the code has it.  Let [C2] be [C] with every label replaced by
    a fresh one, and let [C] flatten.  When no entry of [C] is a [TryBegin]
    or a [TryEnd], [C == C2] and [C2 == C] are true.  When an entry of [C]
    is a [TryBegin], [C == C2] and [C2 == C] are false: the [TryBegin] that
    targets the new label is another object, and [_flat] emits both as they
    are. *)
Theorem C2_label_renaming cs h ρ c c2 :
  label_renaming h ρ (items c) (items c2) →
  is_Ok (_flat Bytecode.iter h (items c)) →
  (no_region_marker h (items c) →
   Bytecode.__eq__ cs h c (VBytecode c2) = Ok true ∧
   Bytecode.__eq__ cs h c2 (VBytecode c) = Ok true) ∧
  (∀ k o, items c !! k = Some o → is_TryBegin (deref h o) = true →
   Bytecode.__eq__ cs h c (VBytecode c2) = Ok false ∧
   Bytecode.__eq__ cs h c2 (VBytecode c) = Ok false).
Proof.
  intros Hr [f Hf]. rewrite !eq_Bytecode_Bytecode. split.
  { intros Hnr. rewrite (flat_renamed h ρ _ _ f Hr Hnr Hf), Hf. simpl.
    by rewrite list_eq_refl. }
  intros k o Hk Hb.
  destruct (renamed_flat_Ok h ρ _ _ Hr) as [f2 Hf2]; [by eexists|].
  rewrite Hf, Hf2. simpl.
  destruct Hr as [Hr _ _ Hfresh].
  destruct (Forall2_lookup_l _ _ _ _ _ Hr Hk) as (o' & Hk' & Hro).
  destruct Hro as [o Ho1 Ho2|o o' i l Ho1 Ha Ho2|o o' t Ho1 Ho2
                  |o o' e e' Ho1 Ho2|o Hn Hto Hnb _];
    try (by rewrite Ho1 in Hb); [|by rewrite Hnb in Hb].
  assert (ρ t ≠ t) as Hne.
  { assert (t ∈ all_labels h (items c)) as Hin.
    { unfold all_labels. rewrite !elem_of_app. right. right.
      apply list_elem_of_omap. exists o.
      split; [by eapply list_elem_of_lookup_2|].
      unfold region_target. by rewrite Ho1. }
    intros Heq. apply (Hfresh t Hin). by rewrite Heq. }
  assert (o ≠ o') as Hoo by (intros ->; congruence).
  assert (item_eq h (FObj o) (FObj o') = false) as He1.
  { simpl. rewrite bool_decide_eq_false_2 by done. by rewrite Ho1, Ho2. }
  assert (item_eq h (FObj o') (FObj o) = false) as He2.
  { simpl. rewrite bool_decide_eq_false_2 by done. by rewrite Ho1, Ho2. }
  destruct (flat_shape_spec h _ f Hf) as [_ H1].
  destruct (flat_shape_spec h _ f2 Hf2) as [_ H2].
  destruct (H1 k o Hk) as [_ Hfo]. destruct (H2 k o' Hk') as [_ Hfo'].
  assert (f !! k = Some (FObj o)) as Hx.
  { apply Hfo; [by rewrite Ho1|unfold target_of; by rewrite Ho1]. }
  assert (f2 !! k = Some (FObj o')) as Hy.
  { apply Hfo'; [by rewrite Ho2|unfold target_of; by rewrite Ho2]. }
  split; f_equal; by eapply list_eq_lookup_false.
Qed.

Lemma ex_renaming :
  label_renaming
    ([OLabel; OInstr (ex_instr "JUMP_FORWARD" (ArgLabel 0));
      OInstr (ex_instr "NOP" ArgUnset); OSetLineno 4;
      OLabel; OInstr (ex_instr "JUMP_FORWARD" (ArgLabel 4))] ++ default_names)
    (λ l, l + 4) [0; 1; 2; 3] [4; 5; 2; 3].
Proof.
  split.
  - constructor; [by apply (renamed_label _ (λ l, l + 4) 0)|].
    constructor; [by eapply renamed_jump|].
    constructor; [by apply renamed_other|].
    constructor; [by apply renamed_other|]. constructor.
  - intros k o o' e e' j Hk _ Ho. exfalso.
    destruct k as [|[|[|[|k]]]]; simpl in Hk; try discriminate;
      injection Hk as <-; discriminate Ho.
  - intros l l' _ _. lia.
  - intros l Hl. vm_compute in Hl.
    apply elem_of_cons in Hl as [->|Hl];
      [|apply list_elem_of_singleton in Hl as ->];
      vm_compute; intros Hin;
      apply elem_of_cons in Hin as [?|Hin]; try done;
      by apply list_elem_of_singleton in Hin.
Qed.

Lemma C2_label_renaming_witness :
  let h := [OLabel; OInstr (ex_instr "JUMP_FORWARD" (ArgLabel 0));
            OInstr (ex_instr "NOP" ArgUnset); OSetLineno 4;
            OLabel; OInstr (ex_instr "JUMP_FORWARD" (ArgLabel 4))]
           ++ default_names in
  Bytecode.__eq__ ex_stacksize h (default_code 6 [0; 1; 2; 3])
    (VBytecode (default_code 6 [4; 5; 2; 3])) = Ok true ∧
  Bytecode.__eq__ ex_stacksize h (default_code 6 [4; 5; 2; 3])
    (VBytecode (default_code 6 [0; 1; 2; 3])) = Ok true.
Proof.
  intros h.
  apply (C2_label_renaming ex_stacksize h (λ l, l + 4)
           (default_code 6 [0; 1; 2; 3]) (default_code 6 [4; 5; 2; 3])).
  - exact ex_renaming.
  - by eexists.
  - repeat (constructor; [by split|]). constructor.
Defined.

(** C2 as stated fails.  When an instruction of [C] refers to a label that
    is not among the entries, [C == C2] raises for the renamed [C2].  When
    [C] holds a region, replacing the label that its [TryBegin] targets
    gives another [TryBegin]; [_flat] emits both as they are and [C == C2]
    is false. *)
Lemma C2_counterexample :
  let h := [OInstr (ex_instr "JUMP_FORWARD" (ArgLabel 1)); OLabel;
            OInstr (ex_instr "JUMP_FORWARD" (ArgLabel 3)); OLabel]
           ++ default_names in
  let h' := [OLabel; OTryBegin 0; OInstr (ex_instr "NOP" ArgUnset); OTryEnd 1;
             OLabel; OTryBegin 4; OTryEnd 5] ++ default_names in
  (label_renaming h (λ l, l + 2) [0] [2] ∧
   Bytecode.__eq__ ex_stacksize h (default_code 4 [0])
     (VBytecode (default_code 4 [2]))
   = Raise (KeyError 1)) ∧
  (label_renaming h' (λ l, l + 4) [1; 2; 3; 0] [5; 2; 6; 4] ∧
   is_Ok (_flat Bytecode.iter h' [1; 2; 3; 0]) ∧
   Bytecode.__eq__ ex_stacksize h' (default_code 7 [1; 2; 3; 0])
     (VBytecode (default_code 7 [5; 2; 6; 4]))
   = Ok false).
Proof.
  split.
  - split; [|done]. split.
    + constructor; [by eapply renamed_jump|]. constructor.
    + intros k o o' e e' j Hk _ Ho. exfalso.
      destruct k as [|k]; simpl in Hk; try discriminate.
      injection Hk as <-. discriminate Ho.
    + intros l l' _ _. lia.
    + intros l Hl. vm_compute in Hl. apply list_elem_of_singleton in Hl as ->.
      vm_compute. intros Hin. by apply list_elem_of_singleton in Hin.
  - split_and!; [|by eexists|done]. split.
    + constructor; [by eapply (renamed_try_begin _ (λ l, l + 4) 1 5 0)|].
      constructor; [by apply renamed_other|].
      constructor; [by eapply (renamed_try_end _ _ 3 6 1 5)|].
      constructor; [by apply (renamed_label _ (λ l, l + 4) 0)|]. constructor.
    + intros k o o' e e' j Hk Hk' Ho Ho' Hj.
      destruct k as [|[|[|[|k]]]]; simpl in Hk, Hk'; try discriminate;
        injection Hk as <-; injection Hk' as <-; try discriminate Ho.
      injection Ho as <-. injection Ho' as <-.
      destruct j as [|[|[|[|j]]]]; simpl in Hj; try discriminate; done.
    + intros l l' _ _. lia.
    + intros l Hl. vm_compute in Hl.
      apply elem_of_cons in Hl as [->|Hl];
        [|apply list_elem_of_singleton in Hl as ->];
        vm_compute; intros Hin;
        apply elem_of_cons in Hin as [?|Hin]; try done;
        by apply list_elem_of_singleton in Hin.
Qed.

(** ** [copy]: outcome and sharing *)

Lemma copy_spec h c :
  wf_bytecode h c →
  Bytecode.copy h c =
  match List.find (λ o, negb (is_entry (deref h o))) (items c) with
  | Some o => (h ++ default_names, Raise (ValueError (type_name (deref h o))))
  | None =>
      (h ++ default_names
         ++ [ONames (names_of h (cellvars c));
             ONames (names_of h (freevars c))],
       Ok {| argcount := argcount c; posonlyargcount := posonlyargcount c;
             kwonlyargcount := kwonlyargcount c;
             first_lineno := first_lineno c; name := name c;
             filename := filename c; docstring := docstring c;
             cellvars := length h + 3; freevars := length h + 4;
             flags := flags c; argnames := argnames c; items := items c |})
  end.
Proof.
  intros (Hcv & Hfv & Han & Hit).
  unfold Bytecode.copy, copy. rewrite init_spec by done.
  destruct (List.find _ _); [done|].
  unfold Bytecode._copy_attr_from, BaseBytecode._copy_attr_from, alloc.
  simpl.
  rewrite !names_of_app_l by (rewrite ?length_app; simpl; lia).
  rewrite <- !app_assoc. simpl. f_equal.
  rewrite !length_app. simpl. do 2 f_equal; lia.
Qed.

Lemma find_not_entry_None h xs :
  List.find (λ o, negb (is_entry (deref h o))) xs = None ↔
  Forall (λ o, is_entry (deref h o) = true) xs.
Proof.
  induction xs as [|o xs IH]; simpl.
  { split; [by constructor|done]. }
  rewrite Forall_cons, <- IH.
  destruct (is_entry (deref h o)); simpl; split; try done.
  - by intros [_ ?].
  - by intros [? _].
Qed.

(** X15. [copy] returns a container exactly when every entry is one of the
    five variants, whatever the nesting of regions and the labels referred
    to; otherwise it raises the [ValueError] that names the type of the
    first entry that is not.  In both cases the store only grows: no
    existing object is changed. *)
Theorem copy_outcome h c :
  wf_bytecode h c →
  (is_Ok (Bytecode.copy h c).2 ↔
   Forall (λ o, is_entry (deref h o) = true) (items c)) ∧
  (∀ e, (Bytecode.copy h c).2 = Raise e →
        ∃ o, List.find (λ o, negb (is_entry (deref h o))) (items c) = Some o ∧
             e = ValueError (type_name (deref h o))) ∧
  (∃ k, (Bytecode.copy h c).1 = h ++ k).
Proof.
  intros Hwf. rewrite copy_spec by done. rewrite <- find_not_entry_None.
  destruct (List.find _ _) as [o|]; simpl; split_and!.
  - split; [by intros [? [=]]|done].
  - intros e [= <-]. by exists o.
  - by eexists.
  - split; [done|by eexists].
  - done.
  - by eexists.
Qed.

Lemma copy_outcome_witness :
  let h := [OTryBegin 0; OTryBegin 1;
            OInstr (ex_instr "JUMP_FORWARD" (ArgLabel 9))]
           ++ default_names in
  let c := default_code 3 [0; 1; 2] in
  (is_Ok (Bytecode.copy h c).2 ↔
   Forall (λ o, is_entry (deref h o) = true) (items c)) ∧
  (∀ e, (Bytecode.copy h c).2 = Raise e →
        ∃ o, List.find (λ o, negb (is_entry (deref h o))) (items c) = Some o ∧
             e = ValueError (type_name (deref h o))) ∧
  (∃ k, (Bytecode.copy h c).1 = h ++ k).
Proof.
  intros h c. apply (copy_outcome h c).
  unfold wf_bytecode. simpl. split_and!; [lia|lia|lia|].
  repeat (constructor; [lia|]). constructor.
Defined.

Lemma names_of_lookup (h : heap) o xs :
  h !! o = Some (ONames xs) → names_of h o = xs.
Proof. intros H. unfold names_of, deref. by rewrite H. Qed.

(** X16. The copy and the original share their list [argnames]:
    [_copy_attr_from] assigns the list itself, so a name appended through
    the copy is in the list of the original. *)
Theorem copy_shares_argnames h c h' c2 xs x :
  wf_bytecode h c →
  h !! argnames c = Some (ONames xs) →
  Bytecode.copy h c = (h', Ok c2) →
  argnames c2 = argnames c ∧
  names_of h' (argnames c) = xs ∧
  names_of (names_append h' (argnames c2) x) (argnames c) = xs ++ [x].
Proof.
  intros Hwf Hx Hc. pose proof Hwf as (_ & _ & Han & _).
  apply copy_Ok in Hc as [-> ->]; [|done]. simpl.
  assert ((h ++ default_names
             ++ [ONames (names_of h (cellvars c));
                 ONames (names_of h (freevars c))]) !! argnames c
          = Some (ONames xs)) as Hx'.
  { by rewrite lookup_app_l. }
  simpl in Hx'. split_and!; [done| |].
  - by apply names_of_lookup.
  - unfold names_append. rewrite Hx'. apply names_of_lookup.
    apply list_lookup_insert_eq. rewrite length_app. lia.
Qed.

Lemma copy_shares_argnames_witness :
  let h := [OInstr (ex_instr "NOP" ArgUnset);
            ONames []; ONames []; ONames ["a"]] in
  let c := default_code 1 [0] in
  let h' := h ++ default_names ++ [ONames []; ONames []] in
  let c2 := {| argcount := 0; posonlyargcount := 0; kwonlyargcount := 0;
               first_lineno := 1; name := "<module>";
               filename := "<string>"; docstring := DocUnset;
               cellvars := 7; freevars := 8; flags := 0; argnames := 3;
               items := [0] |} in
  argnames c2 = argnames c ∧
  names_of h' (argnames c) = ["a"] ∧
  names_of (names_append h' (argnames c2) "b") (argnames c) = ["a"] ++ ["b"].
Proof.
  intros h c h' c2. apply (copy_shares_argnames h c h' c2 ["a"] "b").
  - unfold wf_bytecode. simpl. split_and!; [lia|lia|lia|].
    repeat (constructor; [lia|]). constructor.
  - reflexivity.
  - reflexivity.
Defined.

(** ** [__init__] from another [Bytecode] *)

Lemma init_for_Bytecode h xs : ∀ s,
  Bytecode.init_for Bytecode.iter h s xs = (_ ← traverse h s xs; Ok tt).
Proof.
  induction xs as [|o xs IH]; intros s; simpl; [done|].
  destruct (Bytecode.__iter__ h s o) as [s'|e] eqn:Ei; simpl; [|done].
  rewrite check_instr_spec, (iter_Ok_entry _ _ _ _ Ei). simpl. apply IH.
Qed.

Lemma init_Bytecode_spec h xs :
  Forall (λ o, o < length h) xs →
  Bytecode.__init__ Bytecode.iter h xs =
  (h ++ default_names,
   match traverse h false xs with
   | Ok _ => Ok (default_code (length h) xs)
   | Raise e => Raise e
   end).
Proof.
  intros Hwf. unfold Bytecode.__init__, BaseBytecode.__init__, alloc. simpl.
  rewrite <- !app_assoc. simpl. f_equal.
  change (h ++ [ONames []; ONames []; ONames []]) with (h ++ default_names).
  rewrite init_for_Bytecode, drain_traverse.
  rewrite (traverse_ext h (h ++ default_names)).
  2:{ eapply Forall_impl; [exact Hwf|]. intros o Ho. by apply deref_app_l. }
  destruct (traverse h false xs); simpl; [|done].
  unfold default_code, with_items. simpl. rewrite !length_app. simpl.
  do 2 f_equal; lia.
Qed.

(** X17. When the constructor is given another [Bytecode], the elements
    come through that container's validating traversal: the constructor
    raises whatever the traversal raises, the nesting error included, and
    otherwise returns a container with the default attributes and the same
    entries. *)
Theorem init_from_Bytecode h xs :
  Forall (λ o, o < length h) xs →
  Bytecode.__init__ Bytecode.iter h xs =
  (h ++ default_names,
   match traverse h false xs with
   | Ok _ => Ok (default_code (length h) xs)
   | Raise e => Raise e
   end).
Proof. apply init_Bytecode_spec. Qed.

Lemma init_from_Bytecode_witness :
  Bytecode.__init__ Bytecode.iter [OTryBegin 0; OTryBegin 1] [0; 1] =
  ([OTryBegin 0; OTryBegin 1] ++ default_names,
   match traverse [OTryBegin 0; OTryBegin 1] false [0; 1] with
   | Ok _ => Ok (default_code 2 [0; 1])
   | Raise e => Raise e
   end).
Proof.
  apply (init_from_Bytecode [OTryBegin 0; OTryBegin 1] [0; 1]).
  repeat (constructor; [simpl; lia|]). constructor.
Defined.

(** ** [__init__]: what the constructor checks *)

(** C8, as the code has it.  The constructor runs [_check_instr] on every
    element that iterating its argument gives.  For a plain list or tuple
    it raises the [ValueError] of the first element that is not one of the
    five variants, and otherwise returns a container with the default
    attributes and these entries, whatever the nesting of the regions.
    When the argument is itself a [Bytecode], iterating it is that
    container's validating traversal: the constructor raises whatever the
    traversal raises, the nesting error included, and otherwise returns a
    container with the default attributes and the same entries. *)
Theorem C8_constructor h xs :
  Forall (λ o, o < length h) xs →
  Bytecode.__init__ list_iter h xs =
    (h ++ default_names,
     match List.find (λ o, negb (is_entry (deref h o))) xs with
     | Some o => Raise (ValueError (type_name (deref h o)))
     | None => Ok (default_code (length h) xs)
     end) ∧
  (Forall (λ o, is_entry (deref h o) = true) xs →
   (Bytecode.__init__ list_iter h xs).2 = Ok (default_code (length h) xs)) ∧
  Bytecode.__init__ Bytecode.iter h xs =
    (h ++ default_names,
     match traverse h false xs with
     | Ok _ => Ok (default_code (length h) xs)
     | Raise e => Raise e
     end).
Proof.
  intros Hwf. split_and!; [by apply init_spec| |].
  - intros Hall. rewrite init_spec by done. simpl.
    destruct (List.find _ xs) as [o|] eqn:Ef; [|done].
    apply List.find_some in Ef as [Hin Hneg].
    rewrite list.Forall_forall in Hall.
    rewrite Hall in Hneg; [done|]. by apply list_elem_of_In.
  - by apply init_Bytecode_spec.
Qed.

Lemma C8_constructor_witness :
  let h := [OLabel; OOther "int"; OOther "str"] in
  let xs := [0; 1; 2] in
  Bytecode.__init__ list_iter h xs =
    (h ++ default_names,
     match List.find (λ o, negb (is_entry (deref h o))) xs with
     | Some o => Raise (ValueError (type_name (deref h o)))
     | None => Ok (default_code (length h) xs)
     end) ∧
  (Forall (λ o, is_entry (deref h o) = true) xs →
   (Bytecode.__init__ list_iter h xs).2 = Ok (default_code (length h) xs)) ∧
  Bytecode.__init__ Bytecode.iter h xs =
    (h ++ default_names,
     match traverse h false xs with
     | Ok _ => Ok (default_code (length h) xs)
     | Raise e => Raise e
     end).
Proof.
  intros h xs. apply (C8_constructor h xs). repeat constructor.
Defined.

(** C8 as stated fails: the constructor accepts a list that opens a region
    inside an open region, and the error comes with the first traversal.
    Given that container in place of the list, the constructor raises the
    nesting error. *)
Lemma C8_counterexample :
  let h := [OLabel; OTryBegin 0; OTryBegin 0; OTryEnd 2; OTryEnd 1] in
  Bytecode.__init__ list_iter h [1; 2; 3; 4]
  = (h ++ default_names, Ok (default_code 5 [1; 2; 3; 4])) ∧
  drain Bytecode.iter (h ++ default_names) false
    (items (default_code 5 [1; 2; 3; 4]))
  = ([1], Some RuntimeError_nested) ∧
  (Bytecode.__init__ Bytecode.iter (h ++ default_names)
     (items (default_code 5 [1; 2; 3; 4]))).2
  = Raise RuntimeError_nested.
Proof. by vm_compute. Qed.

(** ** [__getitem__]: slices and indices *)

Lemma omap_lookup_seq (l : list oid) : ∀ n a,
  a + n ≤ length l → omap (λ k, l !! k) (seq a n) = take n (drop a l).
Proof.
  induction n as [|n IH]; intros a Ha; simpl; [done|].
  destruct (lookup_lt_is_Some_2 l a) as [x Hx]; [lia|].
  rewrite Hx. rewrite (drop_S l x a Hx). simpl. f_equal. apply IH. lia.
Qed.

Lemma omap_lookup_shift (l : list oid) (a : nat) : ∀ n b,
  omap (λ k, l !! Z.to_nat (Z.of_nat a + Z.of_nat k * 1)) (seq b n)
  = omap (λ k, l !! k) (seq (a + b) n).
Proof.
  induction n as [|n IH]; intros b; simpl; [done|].
  replace (Z.to_nat (Z.of_nat a + Z.of_nat b * 1)) with (a + b) by lia.
  rewrite IH. by rewrite Nat.add_succ_r.
Qed.

Lemma omap_seq_lookup {A} (f : nat → option A) : ∀ n s k,
  (∀ j, j < n → is_Some (f (s + j))) →
  omap f (seq s n) !! k = if decide (k < n) then f (s + k) else None.
Proof.
  induction n as [|n IH]; intros s k Hf; simpl.
  { by destruct (decide (k < 0)); [lia|]. }
  destruct (Hf 0) as [x Hx]; [lia|]. rewrite Nat.add_0_r in Hx. rewrite Hx.
  destruct k as [|k]; simpl.
  - rewrite Nat.add_0_r. by destruct (decide (0 < S n)); [|lia].
  - rewrite IH.
    + replace (s + S k) with (S s + k) by lia.
      destruct (decide (k < n)), (decide (S k < S n)); try done; lia.
    + intros j Hj. replace (S s + j) with (s + S j) by lia. apply Hf. lia.
Qed.

Lemma slice_elements_simple (l : list oid) (a b : nat) :
  a ≤ b ≤ length l →
  slice_elements l (Some (Z.of_nat a)) (Some (Z.of_nat b)) 1
  = take (b - a) (drop a l).
Proof.
  intros Hab. unfold slice_elements, slice_indices, adjust_index. simpl.
  replace (Z.of_nat a <? 0)%Z with false by lia.
  replace (Z.of_nat b <? 0)%Z with false by lia.
  assert ((if (Z.of_nat (length l) <=? Z.of_nat a)%Z
           then Z.of_nat (length l) else Z.of_nat a) = Z.of_nat a) as ->.
  { case_match; lia. }
  assert ((if (Z.of_nat (length l) <=? Z.of_nat b)%Z
           then Z.of_nat (length l) else Z.of_nat b) = Z.of_nat b) as ->.
  { case_match; lia. }
  assert (Z.to_nat (if (Z.of_nat a <? Z.of_nat b)%Z
                    then ((Z.of_nat b - Z.of_nat a - 1) / 1 + 1)%Z
                    else 0%Z) = b - a) as ->.
  { case_match; [rewrite Z.div_1_r|]; lia. }
  rewrite omap_lookup_shift, Nat.add_0_r. apply omap_lookup_seq. lia.
Qed.

Lemma slice_elements_all (l : list oid) : slice_elements l None None 1 = l.
Proof.
  unfold slice_elements, slice_indices. simpl.
  assert (Z.to_nat (if (0 <? Z.of_nat (length l))%Z
                    then ((Z.of_nat (length l) - 0 - 1) / 1 + 1)%Z
                    else 0%Z) = length l) as ->.
  { case_match; [rewrite Z.div_1_r|]; lia. }
  rewrite (omap_lookup_shift l 0), omap_lookup_seq by (simpl; lia).
  simpl. by rewrite firstn_all.
Qed.

Lemma slice_elements_elem (l : list oid) start stop step o :
  o ∈ slice_elements l start stop step → o ∈ l.
Proof.
  unfold slice_elements. destruct (slice_indices _ _ _ _) as [first n].
  intros (k & _ & Hk)%list_elem_of_omap. by eapply list_elem_of_lookup_2.
Qed.

(** The elements of [l[a:b:p]] for a positive step and bounds in range. *)
Lemma slice_elements_pos (l : list oid) (a b : nat) (p : positive) k :
  a ≤ b ≤ length l →
  slice_elements l (Some (Z.of_nat a)) (Some (Z.of_nat b)) (Z.pos p) !! k
  = if decide (a + k * Pos.to_nat p < b) then l !! (a + k * Pos.to_nat p)
    else None.
Proof.
  intros Hab. unfold slice_elements, slice_indices, adjust_index. simpl.
  replace (Z.of_nat a <? 0)%Z with false by lia.
  replace (Z.of_nat b <? 0)%Z with false by lia.
  assert ((if (Z.of_nat (length l) <=? Z.of_nat a)%Z
           then Z.of_nat (length l) else Z.of_nat a) = Z.of_nat a) as ->.
  { case_match; lia. }
  assert ((if (Z.of_nat (length l) <=? Z.of_nat b)%Z
           then Z.of_nat (length l) else Z.of_nat b) = Z.of_nat b) as ->.
  { case_match; lia. }
  set (n := Z.to_nat _).
  assert (∀ j, j < n ↔ a + j * Pos.to_nat p < b) as Hn.
  { intros j. unfold n. case_match; [|lia].
    pose proof (Z.div_mod (Z.of_nat b - Z.of_nat a - 1) (Z.pos p)).
    pose proof (Z.mod_pos_bound (Z.of_nat b - Z.of_nat a - 1) (Z.pos p)).
    nia. }
  rewrite omap_seq_lookup.
  - simpl. destruct (decide (k < n)) as [Hk|Hk];
      destruct (decide (a + k * Pos.to_nat p < b)) as [Hk'|Hk'];
      [|by apply Hn in Hk|by apply Hn in Hk'|done].
    f_equal. lia.
  - intros j Hj%Hn. simpl. apply lookup_lt_is_Some_2. lia.
Qed.

(** The elements of [l[::-p]]. *)
Lemma slice_elements_neg (l : list oid) (p : positive) k :
  slice_elements l None None (Z.neg p) !! k
  = if decide (k * Pos.to_nat p < length l)
    then l !! (length l - 1 - k * Pos.to_nat p) else None.
Proof.
  unfold slice_elements, slice_indices. simpl.
  set (n := Z.to_nat _).
  assert (∀ j, j < n ↔ j * Pos.to_nat p < length l) as Hn.
  { intros j. unfold n. case_match; [|lia].
    change (- Z.neg p)%Z with (Z.pos p).
    pose proof (Z.div_mod (Z.of_nat (length l) - 1 - -1 - 1) (Z.pos p)).
    pose proof (Z.mod_pos_bound (Z.of_nat (length l) - 1 - -1 - 1) (Z.pos p)).
    nia. }
  rewrite omap_seq_lookup.
  - simpl. destruct (decide (k < n)) as [Hk|Hk];
      destruct (decide (k * Pos.to_nat p < length l)) as [Hk'|Hk'];
      [|by apply Hn in Hk|by apply Hn in Hk'|done].
    f_equal. lia.
  - intros j Hj%Hn. simpl. apply lookup_lt_is_Some_2. lia.
Qed.

(** Bounds that [slice.indices] brings to the same index. *)
Lemma adjust_index_negative len step v :
  (- len ≤ v < 0)%Z → adjust_index len step v = adjust_index len step (v + len).
Proof. intros Hv. unfold adjust_index. repeat case_match; lia. Qed.

Lemma adjust_index_high len step v :
  (0 ≤ step)%Z → (len ≤ v)%Z → (0 ≤ len)%Z →
  adjust_index len step v = adjust_index len step len.
Proof. intros Hs Hv Hl. unfold adjust_index. repeat case_match; lia. Qed.

Lemma adjust_index_low len step v :
  (0 ≤ step)%Z → (v < - len)%Z → (0 ≤ len)%Z →
  adjust_index len step v = adjust_index len step 0.
Proof. intros Hs Hv Hl. unfold adjust_index. repeat case_match; lia. Qed.

Lemma adjust_index_zero len step :
  (0 ≤ step)%Z → (0 ≤ len)%Z → adjust_index len step 0 = 0%Z.
Proof. intros Hs Hl. unfold adjust_index. repeat case_match; lia. Qed.

Lemma adjust_index_len len step :
  (0 ≤ step)%Z → (0 ≤ len)%Z → adjust_index len step len = len.
Proof. intros Hs Hl. unfold adjust_index. repeat case_match; lia. Qed.

(** A slice with a non-zero step is built like a copy of the sliced
    container. *)
Lemma getitem_slice_copy h c start stop step :
  step ≠ StepZero →
  Bytecode.__getitem__ h c (IdxSlice start stop step) =
  let '(h', r) :=
    Bytecode.copy h
      (with_items c
         (slice_elements (items c) start stop (step_value step))) in
  (h', match r with
       | Ok c2 => Ok (inr c2)
       | Raise e => Raise e
       end).
Proof.
  intros Hs.
  unfold Bytecode.__getitem__, __getitem__, Bytecode.copy, copy.
  assert (list_getitem_slice (items c) start stop step
          = Ok (slice_elements (items c) start stop (step_value step))) as ->.
  { by destruct step. }
  cbn [items with_items].
  destruct (Bytecode.__init__ list_iter h _) as [h1 [new|e]]; [|done].
  reflexivity.
Qed.

Lemma wf_with_items_slice h c start stop step :
  wf_bytecode h c →
  wf_bytecode h (with_items c (slice_elements (items c) start stop step)).
Proof.
  intros (Hcv & Hfv & Han & Hit). split_and!; try done. simpl.
  apply list.Forall_forall. intros o Ho%slice_elements_elem.
  rewrite list.Forall_forall in Hit. by apply Hit.
Qed.

Lemma copy_facts h c h' c2 :
  wf_bytecode h c →
  Bytecode.copy h c = (h', Ok c2) →
  items c2 = items c ∧ snapshot h' c2 = snapshot h c ∧
  argnames c2 = argnames c ∧
  h' = h ++ default_names
         ++ [ONames (names_of h (cellvars c));
             ONames (names_of h (freevars c))].
Proof.
  intros Hwf Hc. pose proof Hwf as (Hcv & Hfv & Han & Hit).
  apply copy_Ok in Hc as [-> ->]; [|done]. simpl. split_and!; try done.
  unfold snapshot. simpl. f_equal; [f_equal|].
  - f_equal; [f_equal|].
    + by apply names_of_app_r.
    + by apply names_of_app_r.
    + by apply names_of_app_l.
  - apply Forall_fmap_ext_1. eapply Forall_impl; [exact Hit|].
    intros o Ho. by apply deref_app_l.
Qed.

(** X18. [c[:]] is [c.copy()]: same store, same result. *)
Theorem getitem_full_slice_is_copy h c :
  Bytecode.__getitem__ h c (IdxSlice None None StepNone) =
  ((Bytecode.copy h c).1,
   match (Bytecode.copy h c).2 with
   | Ok c2 => Ok (inr c2)
   | Raise e => Raise e
   end).
Proof.
  rewrite getitem_slice_copy by done. simpl. rewrite slice_elements_all.
  replace (with_items c (items c)) with c by by destruct c.
  by destruct (Bytecode.copy h c).
Qed.

Lemma getitem_slice_spec h c start stop step :
  wf_bytecode h c → step ≠ StepZero →
  match List.find (λ o, negb (is_entry (deref h o)))
          (slice_elements (items c) start stop (step_value step)) with
  | Some o =>
      (Bytecode.__getitem__ h c (IdxSlice start stop step)).2
      = Raise (ValueError (type_name (deref h o)))
  | None =>
      ∃ h' c2,
        Bytecode.__getitem__ h c (IdxSlice start stop step)
        = (h', Ok (inr c2)) ∧
        items c2 = slice_elements (items c) start stop (step_value step) ∧
        snapshot h' c2
        = snapshot h
            (with_items c
               (slice_elements (items c) start stop (step_value step))) ∧
        argnames c2 = argnames c ∧
        snapshot h' c = snapshot h c
  end.
Proof.
  intros Hwf Hs.
  pose proof (wf_with_items_slice h c start stop (step_value step) Hwf)
    as Hwf'.
  rewrite getitem_slice_copy by done.
  destruct (List.find _ _) as [o|] eqn:Ef.
  - rewrite copy_spec by done. simpl. by rewrite Ef.
  - destruct (Bytecode.copy h _) as [h' [c2|e]] eqn:Ec.
    + exists h', c2. split; [done|].
      pose proof (copy_facts h _ h' c2 Hwf' Ec) as (Hi & Hs' & Ha & ->).
      split_and!; try done. by apply snapshot_app.
    + rewrite copy_spec in Ec by done. simpl in Ec. by rewrite Ef in Ec.
Qed.

Lemma find_Some_first {A} (f : A → bool) : ∀ l x,
  List.find f l = Some x →
  ∃ k, l !! k = Some x ∧ f x = true ∧
       ∀ j y, j < k → l !! j = Some y → f y = false.
Proof.
  induction l as [|a l IH]; intros x; simpl; [done|].
  destruct (f a) eqn:Ea.
  - intros [= ->]. exists 0. split_and!; [done|done|]. intros; lia.
  - intros (k & Hk & Hx & Hfirst)%IH. exists (S k). split_and!; [done|done|].
    intros [|j] y Hj; simpl; [by intros [= <-]|].
    intros Hy. apply (Hfirst j); [lia|done].
Qed.

Lemma getitem_slice_ext h c s1 t1 s2 t2 step :
  list_getitem_slice (items c) s1 t1 step
  = list_getitem_slice (items c) s2 t2 step →
  Bytecode.__getitem__ h c (IdxSlice s1 t1 step)
  = Bytecode.__getitem__ h c (IdxSlice s2 t2 step).
Proof.
  intros H. unfold Bytecode.__getitem__, __getitem__. by rewrite H.
Qed.

Lemma getitem_slice_Raise h c start stop step e :
  wf_bytecode h c → step ≠ StepZero →
  (Bytecode.__getitem__ h c (IdxSlice start stop step)).2 = Raise e →
  ∃ k o,
    slice_elements (items c) start stop (step_value step) !! k = Some o ∧
    is_entry (deref h o) = false ∧
    e = ValueError (type_name (deref h o)) ∧
    ∀ j o', j < k →
      slice_elements (items c) start stop (step_value step) !! j = Some o' →
      is_entry (deref h o') = true.
Proof.
  intros Hwf Hs Hr.
  pose proof (getitem_slice_spec h c start stop step Hwf Hs) as Hspec.
  destruct (List.find _ _) as [o|] eqn:Ef.
  - rewrite Hspec in Hr. injection Hr as <-.
    apply find_Some_first in Ef as (k & Hk & Hne & Hfirst).
    exists k, o. split_and!; [done|by apply negb_true_iff|done|].
    intros j o' Hj Ho'. apply negb_false_iff. by apply (Hfirst j).
  - destruct Hspec as (h1 & c1 & Hg & _). by rewrite Hg in Hr.
Qed.

Lemma getitem_slice_items h c start stop step c2 :
  wf_bytecode h c → step ≠ StepZero →
  (Bytecode.__getitem__ h c (IdxSlice start stop step)).2 = Ok (inr c2) →
  items c2 = slice_elements (items c) start stop (step_value step).
Proof.
  intros Hwf Hs Hr.
  pose proof (getitem_slice_spec h c start stop step Hwf Hs) as Hspec.
  destruct (List.find _ _) as [o|].
  - by rewrite Hspec in Hr.
  - destruct Hspec as (h1 & c1 & Hg & Hi & _). rewrite Hg in Hr.
    simpl in Hr. by injection Hr as <-.
Qed.

(** X19. Slicing a container.  A zero step is the [ValueError] of [list]
    and nothing else happens.  For any other step: an error is the
    [ValueError] that names the type of an entry of the container that is
    not one of the five variants; a result is a container whose entries are
    valid entries of the original, unchanged in the store, with the
    attribute values of the original, its own lists of cell and free
    variable names with the same contents, the very [argnames] list of the
    original, and the original is left as it was; and when every entry of
    the container is valid, slicing succeeds.  For a positive step [p] and
    bounds [a ≤ b ≤ len], the slice holds the entries at [a], [a + p],
    [a + 2p], ... below [b], in order and nothing else, and an error names
    the first of these that is not valid; for a negative step [-p] and no
    bounds the slice holds the entries at [len - 1], [len - 1 - p], ... down
    to position 0. *)
Theorem getitem_slice_outcome h c start stop step :
  wf_bytecode h c →
  let r := Bytecode.__getitem__ h c (IdxSlice start stop step) in
  (step = StepZero → r = (h, Raise ValueError_slice_step)) ∧
  (step ≠ StepZero →
   (∀ e, r.2 = Raise e →
      ∃ o, o ∈ items c ∧ is_entry (deref h o) = false ∧
           e = ValueError (type_name (deref h o))) ∧
   (∀ v, r.2 = Ok v →
      ∃ c2, v = inr c2 ∧
        (∀ o, o ∈ items c2 →
           o ∈ items c ∧ is_entry (deref h o) = true ∧
           deref r.1 o = deref h o) ∧
        (argcount c2, posonlyargcount c2, kwonlyargcount c2, flags c2)
        = (argcount c, posonlyargcount c, kwonlyargcount c, flags c) ∧
        (first_lineno c2, name c2, filename c2, docstring c2)
        = (first_lineno c, name c, filename c, docstring c) ∧
        names_of r.1 (cellvars c2) = names_of h (cellvars c) ∧
        names_of r.1 (freevars c2) = names_of h (freevars c) ∧
        cellvars c2 ≠ cellvars c ∧ freevars c2 ≠ freevars c ∧
        argnames c2 = argnames c ∧
        snapshot r.1 c = snapshot h c) ∧
   (Forall (λ o, is_entry (deref h o) = true) (items c) → is_Ok r.2)) ∧
  (∀ (p : positive) (a b : nat),
     step = StepPos p →
     start = Some (Z.of_nat a) → stop = Some (Z.of_nat b) →
     a ≤ b ≤ length (items c) →
     (∀ c2, r.2 = Ok (inr c2) →
        ∀ k, items c2 !! k
             = if decide (a + k * Pos.to_nat p < b)
               then items c !! (a + k * Pos.to_nat p) else None) ∧
     (∀ e, r.2 = Raise e →
        ∃ k o, a + k * Pos.to_nat p < b ∧
               items c !! (a + k * Pos.to_nat p) = Some o ∧
               is_entry (deref h o) = false ∧
               e = ValueError (type_name (deref h o)) ∧
               ∀ j o', j < k →
                 items c !! (a + j * Pos.to_nat p) = Some o' →
                 is_entry (deref h o') = true)) ∧
  (∀ (p : positive) c2,
     step = StepNeg p → start = None → stop = None →
     r.2 = Ok (inr c2) →
     ∀ k, items c2 !! k
          = if decide (k * Pos.to_nat p < length (items c))
            then items c !! (length (items c) - 1 - k * Pos.to_nat p)
            else None).
Proof.
  intros Hwf r. split_and!.
  - by intros ->.
  - intros Hs.
    pose proof (getitem_slice_spec h c start stop step Hwf Hs) as Hspec.
    pose proof (wf_with_items_slice h c start stop (step_value step) Hwf)
      as (_ & _ & _ & Hlt).
    cbn [items with_items] in Hlt. rewrite list.Forall_forall in Hlt.
    pose proof (slice_elements_elem (items c) start stop (step_value step))
      as Hsub.
    destruct (List.find _ _) as [o|] eqn:Ef.
    + apply List.find_some in Ef as [Hin Hne].
      apply list_elem_of_In, Hsub in Hin.
      apply negb_true_iff in Hne. split_and!.
      * intros e He. unfold r in He. rewrite Hspec in He.
        injection He as <-. by exists o.
      * intros v Hv. unfold r in Hv. by rewrite Hspec in Hv.
      * intros Hall. rewrite list.Forall_forall in Hall.
        by rewrite (Hall o Hin) in Hne.
    + destruct Hspec as (h' & c2 & Hg & Hi & Hsn & Ha & Hsc).
      apply find_not_entry_None in Ef. rewrite list.Forall_forall in Ef.
      split_and!.
      * intros e He. unfold r in He. by rewrite Hg in He.
      * intros v Hv. unfold r in Hv |- *. rewrite Hg in Hv |- *.
        cbn [fst snd] in Hv |- *. injection Hv as <-. exists c2.
        pose proof Hwf as (Hcv & Hfv & _ & _).
        pose proof (getitem_slice_copy h c start stop step Hs) as Hc.
        rewrite Hg in Hc.
        destruct (Bytecode.copy h _) as [h1 [c1|e1]] eqn:Ec; [|done].
        injection Hc as -> ->.
        apply copy_Ok in Ec as [Hh1 Hc1];
          [|by apply wf_with_items_slice].
        unfold snapshot in Hsn. injection Hsn as Hd Hn3 Hn2 Hn1 H4 H3 H2 H1
          H8 H7 H6 H5.
        split_and!; try done; try congruence.
        -- intros o Ho. rewrite Hi in Ho. split_and!; [by apply Hsub|by apply Ef|].
           rewrite Hh1. apply deref_app_l. by apply Hlt.
        -- rewrite Hc1. simpl. lia.
        -- rewrite Hc1. simpl. lia.
      * intros _. unfold r. rewrite Hg. by eexists.
  - intros p a b -> -> -> Hab. split.
    + intros c2 Hr k.
      apply getitem_slice_items in Hr; [|done|done]. rewrite Hr.
      by apply slice_elements_pos.
    + intros e Hr.
      apply getitem_slice_Raise in Hr as (k & o & Hk & Hne & -> & Hfirst);
        [|done|done].
      cbn [step_value] in Hk, Hfirst.
      rewrite slice_elements_pos in Hk by done.
      destruct (decide (a + k * Pos.to_nat p < b)) as [Hlt|]; [|done].
      exists k, o. split_and!; try done.
      intros j o' Hj Ho'. apply (Hfirst j); [done|].
      rewrite slice_elements_pos by done.
      rewrite decide_True; [done|]. nia.
  - intros p c2 -> -> -> Hr k.
    apply getitem_slice_items in Hr; [|done|done]. rewrite Hr.
    apply slice_elements_neg.
Qed.

Lemma getitem_slice_outcome_witness :
  let h := [OInstr (ex_instr "NOP" ArgUnset); OLabel; OOther "int";
            OInstr (ex_instr "RETURN_VALUE" ArgUnset)]
           ++ default_names in
  let c := default_code 4 [0; 1; 2; 3] in
  Bytecode.__getitem__ h c (IdxSlice (Some 0%Z) (Some 4%Z) StepZero)
  = (h, Raise ValueError_slice_step) ∧
  ∀ c2,
    (Bytecode.__getitem__ h c
       (IdxSlice (Some (Z.of_nat 1)) (Some (Z.of_nat 4)) (StepPos 2))).2
    = Ok (inr c2) →
    ∀ k, items c2 !! k
         = if decide (1 + k * Pos.to_nat 2 < 4)
           then items c !! (1 + k * Pos.to_nat 2) else None.
Proof.
  intros h c.
  assert (wf_bytecode h c) as Hwf.
  { unfold wf_bytecode. simpl. split_and!; [lia|lia|lia|].
    repeat (constructor; [lia|]). constructor. }
  split.
  - by apply (getitem_slice_outcome h c (Some 0%Z) (Some 4%Z) StepZero).
  - intros c2 Hr.
    apply (getitem_slice_outcome h c (Some (Z.of_nat 1)) (Some (Z.of_nat 4))
             (StepPos 2) Hwf); try done. simpl. lia.
Defined.

(** X23. The bounds of a slice are brought into range as [list] does.  A
    negative bound [v] with [-len ≤ v] counts from the end: it stands for
    [v + len].  For a positive step (or none), a missing start is 0 and a
    missing stop is [len]; a bound above [len] stands for [len] and a bound
    below [-len] for 0. *)
Theorem getitem_slice_bounds h c start stop step (v : Z) :
  let len := Z.of_nat (length (items c)) in
  let get := λ start stop,
    Bytecode.__getitem__ h c (IdxSlice start stop step) in
  ((- len ≤ v < 0)%Z →
   get (Some v) stop = get (Some (v + len)%Z) stop ∧
   get start (Some v) = get start (Some (v + len)%Z)) ∧
  (match step with StepNone | StepPos _ => True | _ => False end →
   get None stop = get (Some 0%Z) stop ∧
   get start None = get start (Some len) ∧
   ((len ≤ v)%Z →
    get (Some v) stop = get (Some len) stop ∧
    get start (Some v) = get start (Some len)) ∧
   ((v < - len)%Z →
    get (Some v) stop = get (Some 0%Z) stop ∧
    get start (Some v) = get start (Some 0%Z))).
Proof.
  intros len get. unfold get. split.
  - intros Hv. split; apply getitem_slice_ext;
      unfold list_getitem_slice, slice_elements, slice_indices;
      fold len; by rewrite (adjust_index_negative len _ v Hv).
  - intros Hs.
    assert (0 ≤ step_value step)%Z as Hp by (by destruct step).
    assert ((step_value step <? 0)%Z = false) as Hf by lia.
    assert (0 ≤ len)%Z as Hl by lia.
    split_and!.
    + apply getitem_slice_ext.
      unfold list_getitem_slice, slice_elements, slice_indices. fold len.
      by rewrite Hf, adjust_index_zero.
    + apply getitem_slice_ext.
      unfold list_getitem_slice, slice_elements, slice_indices. fold len.
      by rewrite Hf, adjust_index_len.
    + intros Hv. split; apply getitem_slice_ext;
        unfold list_getitem_slice, slice_elements, slice_indices;
        fold len; by rewrite (adjust_index_high len _ v Hp Hv Hl).
    + intros Hv. split; apply getitem_slice_ext;
        unfold list_getitem_slice, slice_elements, slice_indices;
        fold len; by rewrite (adjust_index_low len _ v Hp Hv Hl).
Qed.

(** X20. For [a ≤ b ≤ len(c)], the slice [c[a:b]] of a container whose
    entries in that range are all of the five variants holds the entries at
    positions [a] to [b - 1], in order. *)
Theorem getitem_slice_range h c (a b : nat) :
  wf_bytecode h c → a ≤ b ≤ length (items c) →
  Forall (λ o, is_entry (deref h o) = true) (take (b - a) (drop a (items c))) →
  ∃ h' c2,
    Bytecode.__getitem__ h c
      (IdxSlice (Some (Z.of_nat a)) (Some (Z.of_nat b)) StepNone)
    = (h', Ok (inr c2)) ∧
    items c2 = take (b - a) (drop a (items c)).
Proof.
  intros Hwf Hab Hall.
  pose proof (getitem_slice_spec h c (Some (Z.of_nat a))
                (Some (Z.of_nat b)) StepNone Hwf) as Ho.
  specialize (Ho ltac:(done)). cbn [step_value] in Ho.
  rewrite !slice_elements_simple in Ho by done.
  apply find_not_entry_None in Hall. rewrite Hall in Ho.
  destruct Ho as (h' & c2 & Hg & Hi & _). by exists h', c2.
Qed.

Lemma getitem_slice_range_witness :
  let h := [OOther "int"; OInstr (ex_instr "NOP" ArgUnset); OLabel;
            OOther "str"] ++ default_names in
  let c := default_code 4 [0; 1; 2; 3] in
  ∃ h' c2,
    Bytecode.__getitem__ h c
      (IdxSlice (Some (Z.of_nat 1)) (Some (Z.of_nat 3)) StepNone)
    = (h', Ok (inr c2)) ∧
    items c2 = take (3 - 1) (drop 1 (items c)).
Proof.
  intros h c. apply (getitem_slice_range h c 1 3).
  - unfold wf_bytecode. simpl. split_and!; [lia|lia|lia|].
    repeat (constructor; [lia|]). constructor.
  - simpl. lia.
  - repeat constructor.
Defined.

(** X21. Indexing a container by an integer returns the entry at that
    position, counted from the end for a negative index, without any check
    of the entry and without touching the store; it raises [IndexError]
    exactly when the index is out of range. *)
Theorem getitem_int_outcome h c (i : Z) :
  let len := Z.of_nat (length (items c)) in
  ((0 ≤ i < len)%Z →
   ∃ o, items c !! Z.to_nat i = Some o ∧
        Bytecode.__getitem__ h c (IdxInt i) = (h, Ok (inl o))) ∧
  ((- len ≤ i < 0)%Z →
   ∃ o, items c !! Z.to_nat (len + i) = Some o ∧
        Bytecode.__getitem__ h c (IdxInt i) = (h, Ok (inl o))) ∧
  ((i < - len ∨ len ≤ i)%Z →
   Bytecode.__getitem__ h c (IdxInt i) = (h, Raise IndexError)).
Proof.
  intros len. unfold Bytecode.__getitem__, __getitem__, list_getitem_int.
  fold len. split_and!.
  - intros Hi.
    destruct (lookup_lt_is_Some_2 (items c) (Z.to_nat i)) as [o Ho];
      [lia|].
    exists o. split; [done|].
    rewrite !(proj2 (Z.ltb_ge i 0)) by lia. by rewrite Ho.
  - intros Hi.
    destruct (lookup_lt_is_Some_2 (items c) (Z.to_nat (len + i))) as [o Ho];
      [lia|].
    exists o. split; [done|].
    rewrite !(proj2 (Z.ltb_lt i 0)) by lia.
    rewrite (proj2 (Z.ltb_ge (i + len) 0)) by lia.
    by rewrite (Z.add_comm i len), Ho.
  - intros [Hi|Hi].
    + rewrite !(proj2 (Z.ltb_lt i 0)) by lia.
      by rewrite (proj2 (Z.ltb_lt (i + len) 0)) by lia.
    + rewrite !(proj2 (Z.ltb_ge i 0)) by lia.
      by rewrite lookup_ge_None_2 by lia.
Qed.
